(** * debug_csv_search: grouping of the employee roster, document
      construction, chunking and the orchestration of a diagnostic run

    Shallow embedding of [debug_csv_search.py].  Python [str] values are
    sequences of code points, [dict] rows are finite maps, the insertion
    ordered [dept_groups] dictionary is an association list, and console
    output and calls to the vector store are recorded as a trace. *)

From Stdlib Require Import String Ascii NArith ZArith Lia.
From stdpp Require Import base option list gmap.

Local Open Scope Z_scope.

(** ** Python values *)

(** A Python [str] is a sequence of Unicode code points; [len] counts code
    points. *)
Abbreviation pystr := (list N).

Definition py_len (s : pystr) : Z := Z.of_nat (length s).

(** Source literals are written as UTF-8 text and decoded to code points. *)
Fixpoint utf8_decode (bs : list N) (need : nat) (acc : N) : pystr :=
  match bs with
  | [] => []
  | b :: bs' =>
      match need with
      | O =>
          if (b <? 0x80)%N then b :: utf8_decode bs' 0 0%N
          else if (b <? 0xE0)%N then utf8_decode bs' 1 (N.land b 0x1F)
          else if (b <? 0xF0)%N then utf8_decode bs' 2 (N.land b 0x0F)
          else utf8_decode bs' 3 (N.land b 0x07)
      | S O => N.lor (N.shiftl acc 6) (N.land b 0x3F) :: utf8_decode bs' 0 0%N
      | S n => utf8_decode bs' n (N.lor (N.shiftl acc 6) (N.land b 0x3F))
      end
  end.

Definition py (s : string) : pystr :=
  utf8_decode (map N_of_ascii (list_ascii_of_string s)) 0 0%N.

(** The values a [csv.DictReader] row holds under a string key: a field
    ([str]) or, for a row shorter than the header, the [restval] [None]. *)
Inductive pyval : Type :=
  | PyStr (s : pystr)
  | PyNone.

#[global] Instance pyval_eq_dec : EqDecision pyval.
Proof. solve_decision. Defined.

(** [f"{v}"]: the [str()] of the value. *)
Definition fmt (v : pyval) : pystr :=
  match v with
  | PyStr s => s
  | PyNone => py "None"
  end.

(** One row of the table: a [dict] from field name to value. *)
Abbreviation row := (gmap pystr pyval).

(** [d.get(key, dflt)] *)
Definition dict_get (d : row) (key : pystr) (dflt : pyval) : pyval :=
  default dflt (d !! key).

(** [sep.join(parts)] *)
Fixpoint join (sep : pystr) (parts : list pystr) : pystr :=
  match parts with
  | [] => []
  | [p] => p
  | p :: ps => p ++ sep ++ join sep ps
  end.

(** ** Constants *)

Definition DATA_DIR_PATH : pystr := py "./data".
Definition CHUNK_SIZE : Z := 500.
Definition CHUNK_OVERLAP : Z := 50.
Definition RETRIEVER_SEARCH_K : Z := 5.

Definition NL : N := 10%N.

(** [os.path.join(DATA_DIR_PATH, "社員について", "社員名簿.csv")] *)
Definition csv_path : pystr :=
  join (py "/") [DATA_DIR_PATH; py "社員について"; py "社員名簿.csv"].

(** ** The grouping loop of [load_employee_csv]

    [dept_groups] is a [dict] whose iteration order (insertion order) is
    observed by the document loop, so it is an association list with at
    most one entry per key; a new key is appended at the end. *)
Abbreviation groups := (list (pyval * list row)).

(** [dept in dept_groups] *)
Fixpoint dict_contains (dept : pyval) (g : groups) : bool :=
  match g with
  | [] => false
  | (k, _) :: g' => if decide (k = dept) then true else dict_contains dept g'
  end.

(** [dept_groups[dept].append(r)] for a key that is present. *)
Fixpoint dict_append (dept : pyval) (r : row) (g : groups) : groups :=
  match g with
  | [] => []
  | (k, bucket) :: g' =>
      if decide (k = dept) then (k, bucket ++ [r]) :: g'
      else (k, bucket) :: dict_append dept r g'
  end.

(** [row.get('部署', '不明')] *)
Definition dept_of (r : row) : pyval :=
  dict_get r (py "部署") (PyStr (py "不明")).

(** The body of [for row in rows]. *)
Definition group_step (dept_groups : groups) (r : row) : groups :=
  let dept := dept_of r in
  let dept_groups :=
    if dict_contains dept dept_groups then dept_groups
    else dept_groups ++ [(dept, [])] in
  dict_append dept r dept_groups.

Definition group_rows (rows : list row) : groups :=
  fold_left group_step rows [].

(** ** The document loop of [load_employee_csv] *)

Abbreviation meta := (gmap pystr pyval).

(** [langchain.schema.Document] *)
Record Document : Type := mkDocument {
  page_content : pystr;
  metadata : meta
}.

(** [emp_info]: one f-string per source line, implicitly concatenated. *)
Definition emp_info (emp : row) : pystr :=
  concat
    [ py "社員ID: " ++ fmt (dict_get emp (py "社員ID") (PyStr [])) ++ py ", ";
      py "氏名: " ++ fmt (dict_get emp (py "氏名(フルネーム)") (PyStr [])) ++ py ", ";
      py "性別: " ++ fmt (dict_get emp (py "性別") (PyStr [])) ++ py ", ";
      py "年齢: " ++ fmt (dict_get emp (py "年齢") (PyStr [])) ++ py "歳, ";
      py "従業員区分: " ++ fmt (dict_get emp (py "従業員区分") (PyStr [])) ++ py ", ";
      py "部署: " ++ fmt (dict_get emp (py "部署") (PyStr [])) ++ py ", ";
      py "役職: " ++ fmt (dict_get emp (py "役職") (PyStr [])) ++ py ", ";
      py "スキルセット: " ++ fmt (dict_get emp (py "スキルセット") (PyStr [])) ++ py ", ";
      py "保有資格: " ++ fmt (dict_get emp (py "保有資格") (PyStr [])) ].

(** [f"【{dept}の従業員一覧】\n"]: the first element of [content_lines];
    the literal ends with a newline of its own. *)
Definition header (dept : pyval) : pystr :=
  py "【" ++ fmt dept ++ py "の従業員一覧】" ++ [NL].

Definition content_lines (dept : pyval) (employees : list row) : list pystr :=
  header dept :: (emp_info <$> employees).

(** The body of [for dept, employees in dept_groups.items()]. *)
Definition make_doc (entry : pyval * list row) : Document :=
  let '(dept, employees) := entry in
  let content := join [NL] (content_lines dept employees) in
  mkDocument content
    (<[py "department" := dept]> (<[py "source" := PyStr csv_path]> ∅)).

Definition build_docs (dept_groups : groups) : list Document :=
  make_doc <$> dept_groups.

(** ** The text splitter

    [create_vector_store] builds
    [CharacterTextSplitter(separator="\n", chunk_size=CHUNK_SIZE,
    chunk_overlap=CHUNK_OVERLAP)] and calls [split_documents].  The class
    is the one the script imports from [langchain.text_splitter]; the
    definitions below follow the library's methods of the same names
    ([_split_text_with_regex], [_join_docs], [_merge_splits], [split_text],
    [create_documents], [split_documents]) with its defaults
    [length_function=len], [keep_separator=False],
    [is_separator_regex=False], [strip_whitespace=True],
    [add_start_index=False]. *)

(** [str.isspace] on one code point: the characters [str.strip()] removes. *)
Definition is_space (c : N) : bool :=
  ((0x09 <=? c) && (c <=? 0x0D) || (0x1C <=? c) && (c <=? 0x20)
   || (c =? 0x85) || (c =? 0xA0) || (c =? 0x1680)
   || (0x2000 <=? c) && (c <=? 0x200A)
   || (c =? 0x2028) || (c =? 0x2029) || (c =? 0x202F) || (c =? 0x205F)
   || (c =? 0x3000))%N.

Fixpoint lstrip (s : pystr) : pystr :=
  match s with
  | [] => []
  | c :: s' => if is_space c then lstrip s' else s
  end.

Definition rstrip (s : pystr) : pystr := rev (lstrip (rev s)).

(** [text.strip()] *)
Definition strip (s : pystr) : pystr := rstrip (lstrip s).

Definition cons_head (c : N) (parts : list pystr) : list pystr :=
  match parts with
  | [] => [[c]]
  | p :: ps => (c :: p) :: ps
  end.

(** [re.split(re.escape(sep), text)] for a one-character separator: the
    text is cut at every occurrence, empty pieces included. *)
Fixpoint re_split (sep : N) (text : pystr) : list pystr :=
  match text with
  | [] => [[]]
  | c :: text' =>
      if (c =? sep)%N then [] :: re_split sep text'
      else cons_head c (re_split sep text')
  end.

(** A computation that may raise: [None] stands for the exception. *)
Abbreviation raises A := (option A).

Section TextSplitter.

Variable separator : N.
Variables chunk_size chunk_overlap : Z.

(** [_split_text_with_regex(text, separator, keep_separator=False)] *)
Definition split_text_with_regex (text : pystr) : list pystr :=
  filter (λ s, s ≠ []) (re_split separator text).

(** [_join_docs(docs, separator)] *)
Definition join_docs (docs : list pystr) : option pystr :=
  let text := strip (join [separator] docs) in
  if decide (text = []) then None else Some text.

Definition separator_len : Z := py_len [separator].

(** [separator_len if cond else 0] *)
Definition sep_if (cond : bool) : Z := if cond then separator_len else 0.

(** The condition of the [while] loop of [_merge_splits]. *)
Definition keep_popping (current_doc : list pystr) (total _len : Z) : bool :=
  (chunk_overlap <? total)
  || ((chunk_size <? total + _len + sep_if (0 <? length current_doc)%nat)
      && (0 <? total)).

(** The [while] loop: every round drops [current_doc[0]], which raises
    [IndexError] on an empty list. *)
Fixpoint pop_loop (current_doc : list pystr) (total _len : Z)
  : raises (list pystr * Z) :=
  if keep_popping current_doc total _len then
    match current_doc with
    | [] => None
    | c :: rest =>
        pop_loop rest
          (total - (py_len c + sep_if (1 <? length current_doc)%nat)) _len
    end
  else Some (current_doc, total).

(** [docs.append(doc)] when [doc is not None]. *)
Definition append_doc (docs : list pystr) (doc : option pystr) : list pystr :=
  match doc with
  | Some d => docs ++ [d]
  | None => docs
  end.

(** The state of the [for d in splits] loop. *)
Record merge_state : Type := mkMerge {
  docs : list pystr;
  current_doc : list pystr;
  total : Z
}.

(** The body of [for d in splits]. *)
Definition merge_step (st : merge_state) (d : pystr) : raises merge_state :=
  let _len := py_len d in
  st' ←
    (if chunk_size <? total st + _len
                      + sep_if (0 <? length (current_doc st))%nat
     then
       if (0 <? length (current_doc st))%nat then
         let docs' := append_doc (docs st) (join_docs (current_doc st)) in
         popped ← pop_loop (current_doc st) (total st) _len;
         Some (mkMerge docs' popped.1 popped.2)
       else Some st
     else Some st);
  let current_doc' := current_doc st' ++ [d] in
  Some (mkMerge (docs st') current_doc'
          (total st' + (_len + sep_if (1 <? length current_doc')%nat))).

Fixpoint merge_loop (splits : list pystr) (st : merge_state)
  : raises merge_state :=
  match splits with
  | [] => Some st
  | d :: splits' => st' ← merge_step st d; merge_loop splits' st'
  end.

(** [_merge_splits(splits, separator)] *)
Definition merge_splits (splits : list pystr) : raises (list pystr) :=
  st ← merge_loop splits (mkMerge [] [] 0);
  Some (append_doc (docs st) (join_docs (current_doc st))).

(** [CharacterTextSplitter.split_text] *)
Definition split_text (text : pystr) : raises (list pystr) :=
  merge_splits (split_text_with_regex text).

(** [create_documents(texts, metadatas)]: the chunks of [texts[i]], each
    with a copy of [_metadatas[i]] (read once a chunk exists; out of range
    it raises [IndexError]). *)
Fixpoint create_documents_from (i : nat) (texts : list pystr)
    (_metadatas : list meta) : raises (list Document) :=
  match texts with
  | [] => Some []
  | text :: texts' =>
      chunks ← split_text text;
      new_docs ←
        match chunks with
        | [] => Some []
        | _ => md ← _metadatas !! i;
               Some ((λ chunk, mkDocument chunk md) <$> chunks)
        end;
      rest ← create_documents_from (S i) texts' _metadatas;
      Some (new_docs ++ rest)
  end.

Definition create_documents (texts : list pystr) (metadatas : list meta)
  : raises (list Document) :=
  let _metadatas :=
    match metadatas with
    | [] => replicate (length texts) ∅
    | _ => metadatas
    end in
  create_documents_from 0 texts _metadatas.

(** [split_documents(documents)] *)
Definition split_documents (documents : list Document)
  : raises (list Document) :=
  create_documents (page_content <$> documents) (metadata <$> documents).

End TextSplitter.

(** ** Effects: console output and the vector store

    A run is observed through the lines it prints and the calls it makes
    to the external services.  Each [print] of the script is one
    constructor of [message], carrying the values it interpolates. *)

Inductive message : Type :=
  | MsgCsvNotFound (path : pystr)           (* ❌ CSVファイルが見つかりません *)
  | MsgReading (path : pystr)               (* ✅ CSVファイルを読み込み中 *)
  | MsgRowsRead (n : nat)                   (* ✅ n行のデータを読み込みました *)
  | MsgDeptCount (n : nat)                  (* ✅ n個の部署に分類されました *)
  | MsgDept (dept : pyval) (n : nat)        (*    - dept: n名 *)
  | MsgDocsCreated (n : nat)                (* ✅ n個のドキュメントを作成しました *)
  | MsgSampleTitle
  | MsgSampleDept (dept : pyval)
  | MsgSampleContent (prefix : pystr)
  | MsgNoDocuments                          (* ❌ ドキュメントが作成できませんでした *)
  | MsgCreatingStore                        (* 🔧 ベクトルストアを作成中... *)
  | MsgChunks (n : nat)                     (* ✅ n個のチャンクに分割しました *)
  | MsgStoreCreated                         (* ✅ ベクトルストアを作成しました *)
  | MsgQuery (query : pystr)                (* 🔍 検索クエリ *)
  | MsgResultCount (n : nat)                (* ✅ n件の結果が見つかりました *)
  | MsgResultTitle (i : nat)
  | MsgResultDept (dept : pyval)
  | MsgResultContent (prefix : pystr)
  | MsgRule                                 (* "=" * 60 *)
  | MsgRuleAfterBlank                       (* "\n" + "=" * 60 *)
  | MsgTitle                                (* CSV検索デバッグスクリプト *)
  | MsgDone.                                (* デバッグ完了 *)

Inductive event : Type :=
  | EvPrint (m : message)
  | EvChromaFromDocuments (texts : list Document)
  | EvRetrieverInvoke (query : pystr) (k : Z).

(** A computation with effects: the trace it leaves and its result, or
    [None] when it raised. *)
Definition io (A : Type) : Type := list event * raises A.

#[global] Instance io_ret : MRet io := λ A a, ([], Some a).

#[global] Instance io_bind : MBind io := λ A B k m,
  match m with
  | (t, Some a) => let '(t', r) := k a in (t ++ t', r)
  | (t, None) => (t, None)
  end.

Definition emit (e : event) : io unit := ([e], Some tt).

Definition print (m : message) : io unit := emit (EvPrint m).

Definition lift {A} (r : raises A) : io A := ([], r).

(** [for x in xs: body(x)] *)
Fixpoint for_each {A} (body : A → io unit) (xs : list A) : io unit :=
  match xs with
  | [] => mret tt
  | x :: xs' => body x;; for_each body xs'
  end.

(** What the script finds at [csv_path]: nothing, or a table whose rows
    [csv.DictReader] yields in order. *)
Inductive source : Type :=
  | Missing
  | Table (rows : list row).

Definition load_employee_csv (fs : source) : io (list Document) :=
  match fs with
  | Missing =>
      print (MsgCsvNotFound csv_path);;
      mret []
  | Table rows =>
      print (MsgReading csv_path);;
      print (MsgRowsRead (length rows));;
      let dept_groups := group_rows rows in
      print (MsgDeptCount (length dept_groups));;
      for_each (λ entry, print (MsgDept entry.1 (length entry.2))) dept_groups;;
      let docs := build_docs dept_groups in
      print (MsgDocsCreated (length docs));;
      match docs with
      | [] => mret tt
      | doc0 :: _ =>
          print MsgSampleTitle;;
          dept ← lift (metadata doc0 !! py "department");
          print (MsgSampleDept dept);;
          print (MsgSampleContent (take 500 (page_content doc0)))
      end;;
      mret docs
  end.

(** [TextSplitter.__init__] rejects an overlap larger than the chunk size. *)
Definition text_splitter_init (chunk_size chunk_overlap : Z) : raises unit :=
  if chunk_size <? chunk_overlap then None else Some tt.

Definition test_queries : list pystr :=
  [ py "人事部に所属している従業員"; py "人事部"; py "営業部の社員";
    py "IT部のスタッフ" ].

Section Pipeline.

(** The similarity search of the store built from [texts]: an external
    service, left unspecified. *)
Variable retriever_invoke : list Document → Z → pystr → list Document.

(** The handle [create_vector_store] returns stands for the texts it
    indexed. *)
Definition create_vector_store (docs : list Document) : io (list Document) :=
  print MsgCreatingStore;;
  lift (text_splitter_init CHUNK_SIZE CHUNK_OVERLAP);;
  texts ← lift (split_documents NL CHUNK_SIZE CHUNK_OVERLAP docs);
  print (MsgChunks (length texts));;
  emit (EvChromaFromDocuments texts);;
  print MsgStoreCreated;;
  mret texts.

Definition print_result (i : nat) (doc : Document) : io unit :=
  print (MsgResultTitle (S i));;
  print (MsgResultDept
           (dict_get (metadata doc) (py "department") (PyStr (py "N/A"))));;
  print (MsgResultContent (take 300 (page_content doc))).

Definition test_search (vectorstore : list Document) (query : pystr)
  : io (list Document) :=
  print (MsgQuery query);;
  emit (EvRetrieverInvoke query RETRIEVER_SEARCH_K);;
  let results := retriever_invoke vectorstore RETRIEVER_SEARCH_K query in
  print (MsgResultCount (length results));;
  for_each (λ p, print_result p.1 p.2) (imap pair results);;
  mret results.

Definition main (fs : source) : io unit :=
  print MsgRule;; print MsgTitle;; print MsgRule;;
  docs ← load_employee_csv fs;
  match docs with
  | [] => print MsgNoDocuments
  | _ =>
      vectorstore ← create_vector_store docs;
      for_each (λ query, test_search vectorstore query;; mret tt)
        test_queries;;
      print MsgRuleAfterBlank;; print MsgDone;; print MsgRule
  end.

End Pipeline.

(** The calls a run makes to the external services. *)
Definition is_service_call (e : event) : bool :=
  match e with
  | EvPrint _ => false
  | EvChromaFromDocuments _ | EvRetrieverInvoke _ _ => true
  end.

Definition service_calls (t : list event) : list event :=
  filter (λ e, is_service_call e = true) t.

(** ** Reference descriptions used by the statements below *)

(** The distinct elements of a list, in the order in which they first
    occur. *)
Fixpoint first_occurrences (ks : list pyval) : list pyval :=
  match ks with
  | [] => []
  | k :: ks' => k :: filter (λ k', k' ≠ k) (first_occurrences ks')
  end.

(** The rows of one group key, in row order. *)
Definition rows_of (dept : pyval) (rows : list row) : list row :=
  filter (λ r, dept_of r = dept) rows.

(** Grouping described directly: one bucket per distinct key, keys in
    order of first occurrence, each bucket the rows of its key. *)
Definition grouped (rows : list row) : groups :=
  (λ dept, (dept, rows_of dept rows)) <$> first_occurrences (dept_of <$> rows).

(** The number of records held by all buckets together. *)
Definition bucket_total (g : groups) : nat :=
  sum_list ((λ entry, length entry.2) <$> g).

(** The header of a document without the newline its literal ends with. *)
Definition header_line (dept : pyval) : pystr :=
  py "【" ++ fmt dept ++ py "の従業員一覧】".

(** The fields a record line shows, in the order of [emp_info]: the label
    printed, the key read from the row, and what follows the value. *)
Definition FIELDS : list (pystr * pystr * pystr) :=
  [ (py "社員ID", py "社員ID", []);
    (py "氏名", py "氏名(フルネーム)", []);
    (py "性別", py "性別", []);
    (py "年齢", py "年齢", py "歳");
    (py "従業員区分", py "従業員区分", []);
    (py "部署", py "部署", []);
    (py "役職", py "役職", []);
    (py "スキルセット", py "スキルセット", []);
    (py "保有資格", py "保有資格", []) ].

(** One [label: value] pair of a record line. *)
Definition field_pair (emp : row) (field : pystr * pystr * pystr) : pystr :=
  let '(label, key, suffix) := field in
  label ++ py ": " ++ fmt (dict_get emp key (PyStr [])) ++ suffix.

(** The page content as the specification words it: one header line, then
    one line per record, all lines joined by newlines. *)
Definition claimed_page_content (dept : pyval) (employees : list row) : pystr :=
  join [NL] (header_line dept :: (emp_info <$> employees)).

(** Total length of the pieces once joined by the one-character
    separator. *)
Definition joined_len (sep : N) (parts : list pystr) : Z :=
  py_len (join [sep] parts).

(** What the loop of [_merge_splits] maintains: [total] is the length of
    the pending pieces once joined, and no pending piece is empty. *)
Definition tracks (sep : N) (st : merge_state) : Prop :=
  total st = joined_len sep (current_doc st)
  ∧ Forall (λ p, p ≠ []) (current_doc st).

(** The segments cut from one document, with its metadata. *)
Definition segments_of (doc : Document) (chunks : list pystr) : list Document :=
  (λ chunk, mkDocument chunk (metadata doc)) <$> chunks.

(** The lines the loader prints for a table, in order. *)
Definition load_messages (rows : list row) : list message :=
  let dept_groups := group_rows rows in
  [ MsgReading csv_path; MsgRowsRead (length rows);
    MsgDeptCount (length dept_groups) ]
  ++ ((λ entry, MsgDept entry.1 (length entry.2)) <$> dept_groups)
  ++ [ MsgDocsCreated (length (build_docs dept_groups)) ]
  ++ match dept_groups with
     | [] => []
     | entry :: _ =>
         [ MsgSampleTitle; MsgSampleDept entry.1;
           MsgSampleContent (take 500 (page_content (make_doc entry))) ]
     end.

(** The lines [test_search] prints for the results of one query. *)
Definition result_messages (results : list Document) : list message :=
  concat
    (imap (λ i doc,
             [ MsgResultTitle (S i);
               MsgResultDept
                 (dict_get (metadata doc) (py "department") (PyStr (py "N/A")));
               MsgResultContent (take 300 (page_content doc)) ])
       results).

(** ** Observations on a trace *)

(** The per-department counts a run printed, in order. *)
Definition dept_counts (t : list event) : list nat :=
  omap (λ e, match e with EvPrint (MsgDept _ n) => Some n | _ => None end) t.

(** The content previews [test_search] printed, in order. *)
Definition previews (t : list event) : list pystr :=
  omap (λ e, match e with
             | EvPrint (MsgResultContent prefix) => Some prefix
             | _ => None
             end) t.

(** The departments [test_search] reported, in order. *)
Definition reported_depts (t : list event) : list pyval :=
  omap (λ e, match e with
             | EvPrint (MsgResultDept dept) => Some dept
             | _ => None
             end) t.

(** A text made of whitespace only. *)
Definition all_space (s : pystr) : Prop := Forall (λ c, is_space c = true) s.

(** A chunk cut from the pieces [all]: some consecutive pieces, joined by
    the separator and stripped, with something left after stripping. *)
Definition cut_from (sep : N) (all : list pystr) (chunk : pystr) : Prop :=
  ∃ before pieces after,
    all = before ++ pieces ++ after
    ∧ chunk = strip (join [sep] pieces)
    ∧ chunk ≠ [].

(** ** Sample inputs *)

(** A row without the grouping field. *)
Definition row_no_dept : row :=
  <[py "社員ID" := PyStr (py "E002")]> ∅.

(** A row whose grouping field is present and empty. *)
Definition row_empty_dept : row :=
  <[py "部署" := PyStr []]> (<[py "社員ID" := PyStr (py "E001")]> ∅).

(** The rows of the end-to-end scenario: two records of "HR" around one
    of "Sales". *)
Definition row_of_dept (id dept : string) : row :=
  <[py "社員ID" := PyStr (py id)]> (<[py "部署" := PyStr (py dept)]> ∅).

Definition rows_scenario : list row :=
  [ row_of_dept "E001" "HR"; row_of_dept "E002" "Sales";
    row_of_dept "E003" "HR" ].

(** A sample record of the personnel department. *)
Definition row_sample : row :=
  list_to_map
    [ (py "社員ID", PyStr (py "E001"));
      (py "氏名(フルネーム)", PyStr (py "山田 太郎"));
      (py "性別", PyStr (py "男性"));
      (py "年齢", PyStr (py "30"));
      (py "従業員区分", PyStr (py "正社員"));
      (py "部署", PyStr (py "人事部"));
      (py "役職", PyStr (py "主任"));
      (py "スキルセット", PyStr (py "採用, 労務管理"));
      (py "保有資格", PyStr (py "社会保険労務士")) ].

(** The document the loader builds for the bucket of [row_sample]. *)
Definition doc_sample : Document :=
  make_doc (PyStr (py "人事部"), [row_sample]).

(** The record of [row_sample] with a skill set of 500 characters, and the
    document the loader builds for it. *)
Definition row_long : row :=
  <[py "スキルセット" := PyStr (replicate 500 97%N)]> row_sample.

Definition doc_long : Document :=
  make_doc (PyStr (py "人事部"), [row_long]).

(** A line of 501 characters, one more than [CHUNK_SIZE]. *)
Definition long_line : pystr := replicate 501 97%N.

(** A document whose page content is the single line [long_line]. *)
Definition doc_long_line : Document :=
  mkDocument long_line (metadata doc_sample).

(** A document of two lines, without empty line or surrounding
    whitespace. *)
Definition doc_two_lines : Document :=
  mkDocument (py "社員ID: E001" ++ [NL] ++ py "社員ID: E002")
    (metadata doc_sample).

(** A retriever that answers every query with the first indexed text. *)
Definition retriever_first (vectorstore : list Document) (k : Z)
    (query : pystr) : list Document :=
  take 1 vectorstore.

(** [row_no_dept] with an empty grouping field and a column the record
    line does not show. *)
Definition row_extra_column : row :=
  <[py "部署" := PyStr []]>
    (<[py "入社日" := PyStr (py "2020/04/01")]> row_no_dept).

(** A document whose page content is two lines of spaces. *)
Definition doc_blank : Document :=
  mkDocument (py "  " ++ [NL] ++ py " ") (metadata doc_sample).

(** * Properties *)

(** ** The model on concrete inputs *)

Example py_ascii : py "N/A" = [78; 47; 65]%N.
Proof. reflexivity. Qed.

Example py_kanji : py "不明" = [0x4E0D; 0x660E]%N.
Proof. reflexivity. Qed.

Example py_astral : py "🔧" = [0x1F527]%N.
Proof. reflexivity. Qed.

Example csv_path_value : csv_path = py "./data/社員について/社員名簿.csv".
Proof. reflexivity. Qed.

Example re_split_trailing : re_split NL (py "a" ++ [NL]) = [py "a"; []].
Proof. reflexivity. Qed.

(** Two "HR" records and one "Sales" record give two buckets, of sizes 2
    and 1, and two documents. *)
Example scenario_buckets :
  (λ entry, (entry.1, length entry.2)) <$> group_rows rows_scenario
    = [(PyStr (py "HR"), 2%nat); (PyStr (py "Sales"), 1%nat)]
  ∧ length (build_docs (group_rows rows_scenario)) = 2%nat.
Proof. by vm_compute. Qed.

(** Overlap is made of whole pieces: with separator " ", chunk size 7 and
    overlap 3, the text "foo bar baz 123" gives three chunks, each
    starting with the last piece of the one before. *)
Example split_text_overlap :
  split_text 32 7 3 (py "foo bar baz 123")
    = Some [py "foo bar"; py "bar baz"; py "baz 123"].
Proof. reflexivity. Qed.

Example split_text_long_pieces :
  split_text 32 3 1 (py "foo bar baz a a")
    = Some [py "foo"; py "bar"; py "baz"; py "a a"].
Proof. reflexivity. Qed.

Example split_text_empty : split_text NL CHUNK_SIZE CHUNK_OVERLAP [] = Some [].
Proof. reflexivity. Qed.

(** ** Grouping *)

Section Grouping.

Implicit Types (g : groups) (rows : list row) (r : row) (dept : pyval).

Lemma dict_contains_spec dept g :
  dict_contains dept g = true ↔ dept ∈ g.*1.
Proof.
  induction g as [|[k b] g IH]; simpl.
  - rewrite elem_of_nil. split; [discriminate | tauto].
  - rewrite elem_of_cons. destruct (decide (k = dept)) as [->|Hne].
    + split; auto.
    + rewrite IH. intuition congruence.
Qed.

Lemma group_rows_snoc rows r :
  group_rows (rows ++ [r]) = group_step (group_rows rows) r.
Proof. unfold group_rows. by rewrite fold_left_app. Qed.

Lemma first_occurrences_elem k ks :
  k ∈ first_occurrences ks ↔ k ∈ ks.
Proof.
  revert k. induction ks as [|a ks IH]; intros k; simpl; [done|].
  rewrite !elem_of_cons, list_elem_of_filter, IH.
  destruct (decide (k = a)); tauto.
Qed.

Lemma first_occurrences_NoDup ks : NoDup (first_occurrences ks).
Proof.
  induction ks as [|a ks IH]; simpl; constructor.
  - rewrite list_elem_of_filter. tauto.
  - by apply NoDup_filter.
Qed.

Lemma first_occurrences_snoc ks k :
  first_occurrences (ks ++ [k]) =
    if decide (k ∈ ks) then first_occurrences ks
    else first_occurrences ks ++ [k].
Proof.
  induction ks as [|a ks IH].
  - destruct (decide (k ∈ [])) as [Hin|_]; [|done].
    by apply elem_of_nil in Hin.
  - change (first_occurrences ((a :: ks) ++ [k]))
      with (a :: filter (λ k', k' ≠ a) (first_occurrences (ks ++ [k]))).
    rewrite IH. change (first_occurrences (a :: ks))
      with (a :: filter (λ k', k' ≠ a) (first_occurrences ks)).
    destruct (decide (k ∈ ks)) as [Hin|Hnin].
    + rewrite decide_True by (by right). done.
    + rewrite filter_app. destruct (decide (k = a)) as [->|Hne].
      * rewrite decide_True by (by left).
        rewrite filter_cons_False by tauto.
        by rewrite filter_nil, app_nil_r.
      * rewrite decide_False by (rewrite elem_of_cons; tauto).
        rewrite filter_cons_True by done. by rewrite filter_nil.
Qed.

(** Appending to the bucket of a key that occurs once touches that
    bucket only. *)
Lemma dict_append_fmap dept r (f : pyval → list row) (ks : list pyval) :
  NoDup ks →
  dict_append dept r ((λ k, (k, f k)) <$> ks) =
    (λ k, (k, f k ++ if decide (k = dept) then [r] else [])) <$> ks.
Proof.
  induction 1 as [|k ks Hk Hnd IH]; [done|].
  rewrite !fmap_cons. cbn [dict_append].
  destruct (decide (k = dept)) as [->|Hne].
  - f_equal. apply list_fmap_ext. intros i k Hik. f_equal.
    rewrite decide_False, app_nil_r; [done|].
    intros ->. apply Hk. by eapply list_elem_of_lookup_2.
  - rewrite app_nil_r. by rewrite IH.
Qed.

Lemma dict_append_fresh dept r g :
  dept ∉ g.*1 →
  dict_append dept r (g ++ [(dept, [])]) = g ++ [(dept, [r])].
Proof.
  induction g as [|[k b] g IH]; simpl; intros Hnin.
  - by rewrite decide_True.
  - rewrite not_elem_of_cons in Hnin. destruct Hnin as [Hne Hnin].
    rewrite decide_False by done. by rewrite IH.
Qed.

Lemma rows_of_snoc dept rows r :
  rows_of dept (rows ++ [r]) =
    rows_of dept rows ++ if decide (dept_of r = dept) then [r] else [].
Proof.
  unfold rows_of. by rewrite filter_app.
Qed.

Lemma rows_of_absent dept rows :
  dept ∉ dept_of <$> rows → rows_of dept rows = [].
Proof.
  unfold rows_of. induction rows as [|r rows IH]; [done|].
  rewrite fmap_cons, not_elem_of_cons. intros [Hne Hnin].
  rewrite filter_cons_False by congruence. auto.
Qed.

Lemma grouped_keys rows :
  (grouped rows).*1 = first_occurrences (dept_of <$> rows).
Proof.
  unfold grouped. rewrite <- list_fmap_compose.
  rewrite <- (list_fmap_id (first_occurrences _)) at 2.
  by apply list_fmap_ext.
Qed.

Lemma keys_snoc rows r :
  first_occurrences (dept_of <$> rows ++ [r]) =
    if decide (dept_of r ∈ dept_of <$> rows)
    then first_occurrences (dept_of <$> rows)
    else first_occurrences (dept_of <$> rows) ++ [dept_of r].
Proof. rewrite fmap_app. apply first_occurrences_snoc. Qed.

Lemma grouped_snoc rows r :
  grouped (rows ++ [r]) = group_step (grouped rows) r.
Proof.
  unfold group_step.
  destruct (dict_contains (dept_of r) (grouped rows)) eqn:Hc.
  - apply dict_contains_spec in Hc.
    rewrite grouped_keys, first_occurrences_elem in Hc.
    unfold grouped at 2.
    rewrite dict_append_fmap by apply first_occurrences_NoDup.
    unfold grouped. rewrite keys_snoc, decide_True by done.
    apply list_fmap_ext. intros i k _. f_equal.
    rewrite rows_of_snoc. f_equal.
    destruct (decide (dept_of r = k)), (decide (k = dept_of r)); congruence.
  - assert (dept_of r ∉ (grouped rows).*1) as Hnin.
    { rewrite <- dict_contains_spec. by rewrite Hc. }
    rewrite dict_append_fresh by done.
    rewrite grouped_keys, first_occurrences_elem in Hnin.
    unfold grouped. rewrite keys_snoc, decide_False by done.
    rewrite fmap_app. f_equal.
    + apply list_fmap_ext. intros i k Hik. f_equal.
      rewrite rows_of_snoc, decide_False, app_nil_r; [done|].
      intros Heq. apply Hnin. rewrite <- first_occurrences_elem, Heq.
      by eapply list_elem_of_lookup_2.
    + rewrite fmap_cons, fmap_nil. do 2 f_equal.
      rewrite rows_of_snoc, decide_True by done.
      by rewrite rows_of_absent.
Qed.

(** The loop computes the grouping described by [grouped]. *)
Lemma group_rows_grouped rows : group_rows rows = grouped rows.
Proof.
  induction rows as [|r rows IH] using rev_ind; [done|].
  by rewrite group_rows_snoc, IH, grouped_snoc.
Qed.

End Grouping.

Section GroupingCounts.

Implicit Types (g : groups) (rows : list row) (r : row) (dept : pyval).

Lemma bucket_total_concat g : bucket_total g = length (concat g.*2).
Proof.
  unfold bucket_total. induction g as [|[k b] g IH]; [done|].
  rewrite !fmap_cons. cbn [sum_list sum_list_with concat snd].
  rewrite length_app. by rewrite <- IH.
Qed.

Lemma dict_append_records dept r g :
  dept ∈ g.*1 → concat (dict_append dept r g).*2 ≡ₚ r :: concat g.*2.
Proof.
  induction g as [|[k b] g IH]; intros Hin.
  - by apply elem_of_nil in Hin.
  - rewrite fmap_cons, elem_of_cons in Hin. cbn [dict_append].
    destruct (decide (k = dept)) as [->|Hne].
    + rewrite !fmap_cons. cbn [concat snd].
      rewrite <- app_assoc. cbn [app]. by rewrite <- Permutation_middle.
    + rewrite !fmap_cons. cbn [concat snd].
      rewrite IH by (destruct Hin; [by subst|done]).
      by rewrite <- Permutation_middle.
Qed.

Lemma group_step_records g r :
  concat (group_step g r).*2 ≡ₚ r :: concat g.*2.
Proof.
  unfold group_step. destruct (dict_contains (dept_of r) g) eqn:Hc.
  - apply dict_append_records. by apply dict_contains_spec.
  - rewrite dict_append_records.
    + rewrite fmap_app, concat_app. by rewrite app_nil_r.
    + rewrite fmap_app, elem_of_app. right. by left.
Qed.

Lemma fold_group_step_records rows g :
  concat (fold_left group_step rows g).*2 ≡ₚ concat g.*2 ++ rows.
Proof.
  revert g. induction rows as [|r rows IH]; intros g; simpl.
  - by rewrite app_nil_r.
  - rewrite IH, group_step_records. by rewrite <- Permutation_middle.
Qed.

End GroupingCounts.

(** C1. Grouping neither drops nor duplicates a record: the buckets of
    [dept_groups], taken together, hold exactly the rows read, so the sizes
    of the buckets add up to the number of rows; and no key has two
    buckets. *)
Theorem grouping_keeps_every_record (rows : list row) :
  bucket_total (group_rows rows) = length rows
  ∧ concat (group_rows rows).*2 ≡ₚ rows
  ∧ NoDup (group_rows rows).*1.
Proof.
  assert (concat (group_rows rows).*2 ≡ₚ rows) as Hperm.
  { unfold group_rows. by rewrite fold_group_step_records. }
  split_and!; [|done|].
  - rewrite bucket_total_concat. by rewrite Hperm.
  - rewrite group_rows_grouped, grouped_keys. apply first_occurrences_NoDup.
Qed.

(** ** Runs: results and traces *)

Section Runs.

Lemma for_each_prints {A} (f : A → message) (xs : list A) :
  for_each (λ x, print (f x)) xs = ((λ x, EvPrint (f x)) <$> xs, Some tt).
Proof.
  induction xs as [|x xs IH]; [done|].
  cbn [for_each]. by rewrite IH.
Qed.

Lemma make_doc_department (entry : pyval * list row) :
  metadata (make_doc entry) !! py "department" = Some entry.1.
Proof. destruct entry as [dept employees]. apply lookup_insert_eq. Qed.

Lemma make_doc_source (entry : pyval * list row) :
  metadata (make_doc entry) !! py "source" = Some (PyStr csv_path).
Proof.
  destruct entry as [dept employees]. cbn [make_doc metadata].
  rewrite lookup_insert_ne by (by vm_compute). apply lookup_insert_eq.
Qed.

(** The loader returns the documents built from the grouping of the rows
    it read; it does not raise. *)
Lemma load_employee_csv_result (rows : list row) :
  (load_employee_csv (Table rows)).2 = Some (build_docs (group_rows rows)).
Proof.
  unfold load_employee_csv.
  rewrite for_each_prints.
  destruct (build_docs (group_rows rows)) as [|doc0 docs] eqn:Hdocs; [done|].
  assert (∃ entry, doc0 = make_doc entry) as [entry ->].
  { unfold build_docs in Hdocs.
    destruct (group_rows rows) as [|entry g]; [done|].
    exists entry. by injection Hdocs as <- _. }
  by rewrite make_doc_department.
Qed.

End Runs.

(** C10. The documents of one load come in the order in which their group
    keys first occur among the rows, one per distinct key, and the page
    content of each lists the records of its key in row order; the whole
    sequence is this function of the row sequence. *)
Theorem documents_follow_first_occurrence (rows : list row) :
  (load_employee_csv (Table rows)).2 =
    Some ((λ dept,
             mkDocument
               (join [NL] (header dept :: (emp_info <$> rows_of dept rows)))
               (<[py "department" := dept]>
                  (<[py "source" := PyStr csv_path]> ∅)))
            <$> first_occurrences (dept_of <$> rows)).
Proof.
  rewrite load_employee_csv_result, group_rows_grouped.
  unfold build_docs, grouped. by rewrite <- list_fmap_compose.
Qed.

(** ** The fallback group key *)

Section Fallback.

Implicit Types (rows : list row) (r : row) (dept : pyval).

(** Every row sits in the bucket of its own key. *)
Lemma bucket_of_row rows r :
  r ∈ rows →
  (dept_of r, rows_of (dept_of r) rows) ∈ group_rows rows
  ∧ r ∈ rows_of (dept_of r) rows.
Proof.
  intros Hr. rewrite group_rows_grouped. split.
  - unfold grouped. apply list_elem_of_fmap. exists (dept_of r).
    split; [done|]. apply first_occurrences_elem.
    by apply list_elem_of_fmap_2.
  - unfold rows_of. by apply list_elem_of_filter.
Qed.

(** A bucket holds rows of its key only. *)
Lemma bucket_rows_have_key rows dept (bucket : list row) r :
  (dept, bucket) ∈ group_rows rows → r ∈ bucket → dept_of r = dept.
Proof.
  rewrite group_rows_grouped. unfold grouped, rows_of.
  intros [k [[= -> ->] _]]%list_elem_of_fmap Hr.
  by apply list_elem_of_filter in Hr as [? _].
Qed.

Lemma dept_of_absent r :
  r !! py "部署" = None → dept_of r = PyStr (py "不明").
Proof. unfold dept_of, dict_get. by intros ->. Qed.

Lemma dept_of_present r v :
  r !! py "部署" = Some v → dept_of r = v.
Proof. unfold dept_of, dict_get. by intros ->. Qed.

End Fallback.

(** C3, as the code has it.  A record whose grouping field is absent from
    the row goes to the bucket keyed by the sentinel "不明"; a record whose
    grouping field is present goes to the bucket keyed by the value of the
    field, whatever it is, so an empty field selects the bucket keyed by
    the empty string.  In both cases the record is in that bucket and in no
    bucket of another key. *)
Theorem grouping_field_fallback (rows : list row) (r : row) :
  r ∈ rows →
  (r !! py "部署" = None →
     ∃ bucket, (PyStr (py "不明"), bucket) ∈ group_rows rows ∧ r ∈ bucket)
  ∧ (∀ v, r !! py "部署" = Some v →
     ∃ bucket, (v, bucket) ∈ group_rows rows ∧ r ∈ bucket)
  ∧ (∀ dept bucket,
     (dept, bucket) ∈ group_rows rows → r ∈ bucket → dept = dept_of r).
Proof.
  intros Hr. destruct (bucket_of_row rows r Hr) as [Hin Hmem].
  split_and!.
  - intros Habs. rewrite (dept_of_absent r Habs) in Hin, Hmem. eauto.
  - intros v Hv. rewrite (dept_of_present r v Hv) in Hin, Hmem. eauto.
  - intros dept bucket Hb Hrb. symmetry.
    by eapply bucket_rows_have_key.
Qed.

Lemma grouping_field_fallback_witness :
  row_no_dept ∈ [row_empty_dept; row_no_dept]
  ∧ ∃ bucket,
      (PyStr (py "不明"), bucket) ∈ group_rows [row_empty_dept; row_no_dept]
      ∧ row_no_dept ∈ bucket.
Proof.
  assert (row_no_dept ∈ [row_empty_dept; row_no_dept]) as Hr.
  { right. left. }
  split; [exact Hr|].
  destruct (grouping_field_fallback [row_empty_dept; row_no_dept]
              row_no_dept Hr) as [Habsent _].
  apply Habsent. vm_compute. reflexivity.
Defined.

(** C3, as stated, fails for an empty grouping field: the record
    [row_empty_dept] has the field, with the empty string as its value; it
    is grouped under the empty key and no "不明" bucket exists. *)
Lemma empty_dept_not_in_sentinel_bucket :
  row_empty_dept !! py "部署" = Some (PyStr [])
  ∧ group_rows [row_empty_dept] = [(PyStr [], [row_empty_dept])]
  ∧ ¬ ∃ bucket,
        (PyStr (py "不明"), bucket) ∈ group_rows [row_empty_dept].
Proof.
  assert (group_rows [row_empty_dept] = [(PyStr [], [row_empty_dept])]) as Hg.
  { by vm_compute. }
  split_and!; [by vm_compute | exact Hg |].
  rewrite Hg. intros [bucket Hin].
  apply list_elem_of_singleton in Hin. by injection Hin.
Qed.

(** ** Aborted runs *)

(** C7. A table without rows: the loader returns the empty list without
    raising, [main] reports that no document could be created and returns;
    the run makes no call to the vector store, neither to build it nor to
    query it. *)
Theorem empty_table_aborts
    (retriever_invoke : list Document → Z → pystr → list Document) :
  (load_employee_csv (Table [])).2 = Some []
  ∧ main retriever_invoke (Table []) =
      ([ EvPrint MsgRule; EvPrint MsgTitle; EvPrint MsgRule;
         EvPrint (MsgReading csv_path); EvPrint (MsgRowsRead 0);
         EvPrint (MsgDeptCount 0); EvPrint (MsgDocsCreated 0);
         EvPrint MsgNoDocuments ], Some tt)
  ∧ last (main retriever_invoke (Table [])).1 = Some (EvPrint MsgNoDocuments)
  ∧ service_calls (main retriever_invoke (Table [])).1 = [].
Proof. by split_and!. Qed.

(** C8. A missing source file: the loader reports that the file was not
    found, naming the path, and hands back no documents; [main] then
    reports that no document could be created and returns.  The run makes
    no call to the vector store, neither to build it nor to query it. *)
Theorem missing_source_aborts
    (retriever_invoke : list Document → Z → pystr → list Document) :
  load_employee_csv Missing = ([EvPrint (MsgCsvNotFound csv_path)], Some [])
  ∧ main retriever_invoke Missing =
      ([ EvPrint MsgRule; EvPrint MsgTitle; EvPrint MsgRule;
         EvPrint (MsgCsvNotFound csv_path);
         EvPrint MsgNoDocuments ], Some tt)
  ∧ service_calls (main retriever_invoke Missing).1 = [].
Proof. by split_and!. Qed.

(** C9. The loader returns the same value, the empty list, for a missing
    file and for a table without rows, and raises in neither case; [main]
    continues from either result in the same way: it prints the "no
    documents" report after the loader's own output and returns. *)
Theorem loader_results_coincide
    (retriever_invoke : list Document → Z → pystr → list Document) :
  (load_employee_csv Missing).2 = Some []
  ∧ (load_employee_csv (Table [])).2 = Some []
  ∧ (load_employee_csv Missing).2 = (load_employee_csv (Table [])).2
  ∧ main retriever_invoke Missing =
      ([EvPrint MsgRule; EvPrint MsgTitle; EvPrint MsgRule]
         ++ (load_employee_csv Missing).1 ++ [EvPrint MsgNoDocuments],
       Some tt)
  ∧ main retriever_invoke (Table []) =
      ([EvPrint MsgRule; EvPrint MsgTitle; EvPrint MsgRule]
         ++ (load_employee_csv (Table [])).1 ++ [EvPrint MsgNoDocuments],
       Some tt).
Proof. by split_and!. Qed.

(** ** Page content *)

Section Lines.

Implicit Types (text : pystr) (parts : list pystr).

Lemma re_split_no_sep sep text :
  sep ∉ text → re_split sep text = [text].
Proof.
  induction text as [|c text IH]; [done|].
  rewrite not_elem_of_cons. intros [Hne Hnin]. cbn [re_split].
  rewrite (proj2 (N.eqb_neq c sep)) by congruence.
  by rewrite IH.
Qed.

Lemma re_split_app_sep sep text rest :
  sep ∉ text →
  re_split sep (text ++ sep :: rest) = text :: re_split sep rest.
Proof.
  induction text as [|c text IH].
  - intros _. cbn [app re_split]. by rewrite N.eqb_refl.
  - rewrite not_elem_of_cons. intros [Hne Hnin].
    rewrite <- app_comm_cons. cbn [re_split].
    rewrite (proj2 (N.eqb_neq c sep)) by congruence.
    by rewrite IH.
Qed.

Lemma join_cons_cons sep p q parts :
  join sep (p :: q :: parts) = p ++ sep ++ join sep (q :: parts).
Proof. done. Qed.

(** Cutting a newline-joined text at its newlines gives back the pieces,
    when no piece contains the separator. *)
Lemma re_split_join sep parts :
  parts ≠ [] → Forall (λ p, sep ∉ p) parts →
  re_split sep (join [sep] parts) = parts.
Proof.
  intros Hne Hall. induction Hall as [|p parts Hp Hall IH]; [done|].
  destruct parts as [|q parts].
  - by apply re_split_no_sep.
  - rewrite join_cons_cons. cbn [app].
    rewrite re_split_app_sep by done. by rewrite IH.
Qed.

Lemma header_split dept : header dept = header_line dept ++ [NL].
Proof. unfold header, header_line. by rewrite <- !app_assoc. Qed.

Lemma header_line_no_newline dept :
  NL ∉ fmt dept → NL ∉ header_line dept.
Proof.
  intros Hd. unfold header_line. rewrite !elem_of_app.
  intros [H|[H|H]]; [|done|]; revert H; compute_done.
Qed.

Lemma emp_info_pairs emp :
  emp_info emp = join (py ", ") (field_pair emp <$> FIELDS).
Proof.
  unfold emp_info, FIELDS. cbn [fmap list_fmap field_pair join concat].
  rewrite !app_nil_r. by rewrite <- !app_assoc.
Qed.

End Lines.

(** C2, as the code has it.  The page content of a non-empty bucket is the
    header text naming the group key, then an empty line (the header
    literal ends with a newline of its own and is then newline-joined like
    every other element), then one entry per record in bucket order, all
    joined by newlines.  Each entry lists the nine configured fields in
    their fixed order as [label: value] pairs joined by comma-space, the
    age value being followed by "歳".  When neither the group key nor an
    entry contains a newline, the lines of the page content are exactly
    the header, the empty line, and one line per record. *)
Theorem page_content_layout (dept : pyval) (employees : list row) :
  employees ≠ [] →
  page_content (make_doc (dept, employees)) =
    header_line dept ++ [NL; NL] ++ join [NL] (emp_info <$> employees)
  ∧ (∀ emp, emp_info emp = join (py ", ") (field_pair emp <$> FIELDS))
  ∧ (NL ∉ fmt dept → Forall (λ emp, NL ∉ emp_info emp) employees →
     re_split NL (page_content (make_doc (dept, employees))) =
       header_line dept :: [] :: (emp_info <$> employees)).
Proof.
  intros Hne.
  assert (page_content (make_doc (dept, employees)) =
    header_line dept ++ [NL; NL] ++ join [NL] (emp_info <$> employees)) as Hc.
  { destruct employees as [|emp employees]; [done|].
    cbn [make_doc page_content]. unfold content_lines. rewrite fmap_cons.
    rewrite join_cons_cons, header_split. by rewrite <- !app_assoc. }
  split_and!; [exact Hc | apply emp_info_pairs |].
  intros Hd Hall. rewrite Hc. cbn [app].
  rewrite re_split_app_sep by (by apply header_line_no_newline).
  change (NL :: join [NL] (emp_info <$> employees))
    with ([] ++ NL :: join [NL] (emp_info <$> employees)).
  rewrite re_split_app_sep by apply not_elem_of_nil.
  rewrite re_split_join; [done| |].
  - by destruct employees.
  - by apply Forall_fmap.
Qed.

Lemma page_content_layout_witness :
  [row_sample] ≠ []
  ∧ (NL ∉ fmt (PyStr (py "人事部")))
  ∧ Forall (λ emp, NL ∉ emp_info emp) [row_sample]
  ∧ re_split NL (page_content (make_doc (PyStr (py "人事部"), [row_sample]))) =
      header_line (PyStr (py "人事部")) :: [] :: (emp_info <$> [row_sample]).
Proof.
  assert ([row_sample] ≠ []) as Hne by done.
  assert (NL ∉ fmt (PyStr (py "人事部"))) as Hd by compute_done.
  assert (Forall (λ emp, NL ∉ emp_info emp) [row_sample]) as Hall.
  { constructor; [compute_done | constructor]. }
  split_and!; [exact Hne | exact Hd | exact Hall |].
  destruct (page_content_layout (PyStr (py "人事部")) [row_sample] Hne)
    as (_ & _ & Hlines).
  exact (Hlines Hd Hall).
Defined.

(** C2, as stated, fails: the page content of the one-record bucket of
    [row_sample] has three lines, the second of them empty, and differs
    from the newline-join of a header line and one line per record. *)
Lemma page_content_has_blank_line :
  re_split NL (page_content (make_doc (PyStr (py "人事部"), [row_sample]))) =
    [header_line (PyStr (py "人事部")); []; emp_info row_sample]
  ∧ page_content (make_doc (PyStr (py "人事部"), [row_sample]))
    ≠ claimed_page_content (PyStr (py "人事部")) [row_sample].
Proof.
  split; [by vm_compute|].
  intros Heq. apply (f_equal length) in Heq. revert Heq. by vm_compute.
Qed.

(** ** The text splitter *)

Section Strip.

Implicit Types (s : pystr).

Lemma lstrip_length s : (length (lstrip s) ≤ length s)%nat.
Proof.
  induction s as [|c s IH]; [done|].
  cbn [lstrip]. destruct (is_space c); cbn [length]; lia.
Qed.

Lemma strip_length s : py_len (strip s) ≤ py_len s.
Proof.
  unfold py_len, strip, rstrip. rewrite length_rev.
  pose proof (lstrip_length (rev (lstrip s))) as H1.
  pose proof (lstrip_length s) as H2.
  rewrite length_rev in H1. lia.
Qed.

Lemma lstrip_id c s : is_space c = false → lstrip (c :: s) = c :: s.
Proof. intros Hc. cbn [lstrip]. by rewrite Hc. Qed.

(** A text that neither starts nor ends with whitespace is left as it
    is. *)
Lemma strip_id s :
  from_option is_space false (head s) = false →
  from_option is_space false (last s) = false →
  strip s = s.
Proof.
  intros Hhead Hlast. unfold strip, rstrip.
  assert (lstrip s = s) as ->.
  { destruct s as [|c s]; [done|]. by apply lstrip_id. }
  destruct (rev s) as [|c s'] eqn:Hrev.
  - apply (f_equal (@rev N)) in Hrev. by rewrite rev_involutive in Hrev.
  - assert (last s = Some c) as Hc.
    { rewrite <- (rev_involutive s), Hrev. cbn [rev]. apply last_snoc. }
    rewrite Hc in Hlast. rewrite lstrip_id by done.
    by rewrite <- Hrev, rev_involutive.
Qed.

End Strip.

Section Joining.

Variable sep : N.

Implicit Types (text p d : pystr) (parts : list pystr).

Lemma py_len_app p d : py_len (p ++ d) = py_len p + py_len d.
Proof. unfold py_len. rewrite length_app. lia. Qed.

Lemma py_len_nonneg p : 0 ≤ py_len p.
Proof. unfold py_len. lia. Qed.

Lemma py_len_pos p : p ≠ [] → 0 < py_len p.
Proof. unfold py_len. destruct p; [done|]. cbn [length]. lia. Qed.

Lemma sep_if_nonneg b : 0 ≤ sep_if sep b.
Proof. by destruct b. Qed.

Lemma joined_len_nil : joined_len sep [] = 0.
Proof. done. Qed.

Lemma joined_len_cons p parts :
  joined_len sep (p :: parts) =
    py_len p + sep_if sep (0 <? length parts)%nat + joined_len sep parts.
Proof.
  unfold joined_len, sep_if, separator_len, py_len.
  destruct parts as [|q parts].
  - cbn [join length Nat.ltb Nat.leb]. lia.
  - rewrite join_cons_cons, !length_app. cbn [length Nat.ltb Nat.leb]. lia.
Qed.

Lemma joined_len_nonneg parts : 0 ≤ joined_len sep parts.
Proof. apply py_len_nonneg. Qed.

Lemma joined_len_snoc parts d :
  joined_len sep (parts ++ [d]) =
    joined_len sep parts + py_len d + sep_if sep (0 <? length parts)%nat.
Proof.
  induction parts as [|p parts IH].
  - cbn [app]. rewrite joined_len_cons, joined_len_nil. cbn. lia.
  - rewrite <- app_comm_cons, !joined_len_cons, IH.
    rewrite length_app. cbn [length].
    destruct parts; cbn; lia.
Qed.

Lemma joined_len_app_le parts rest :
  joined_len sep parts ≤ joined_len sep (parts ++ rest).
Proof.
  revert parts. induction rest as [|d rest IH]; intros parts.
  - by rewrite app_nil_r.
  - rewrite (cons_middle d parts rest), app_assoc.
    etrans; [|apply IH]. rewrite joined_len_snoc.
    pose proof (py_len_nonneg d).
    pose proof (sep_if_nonneg (0 <? length parts)%nat). lia.
Qed.

Lemma joined_len_positive parts :
  parts ≠ [] → Forall (λ p, p ≠ []) parts → 0 < joined_len sep parts.
Proof.
  intros Hne Hall. destruct Hall as [|p parts Hp Hall]; [done|].
  rewrite joined_len_cons.
  pose proof (py_len_pos p Hp). pose proof (joined_len_nonneg parts).
  pose proof (sep_if_nonneg (0 <? length parts)%nat). lia.
Qed.

Lemma re_split_nonempty text : re_split sep text ≠ [].
Proof.
  destruct text as [|c text]; [done|]. cbn [re_split].
  destruct (c =? sep)%N; [done|]. by destruct (re_split sep text).
Qed.

(** Joining the pieces of a text by the separator restores the text. *)
Lemma join_re_split text : join [sep] (re_split sep text) = text.
Proof.
  induction text as [|c text IH]; [done|]. cbn [re_split].
  pose proof (re_split_nonempty text) as Hne.
  destruct (re_split sep text) as [|p parts] eqn:Hs; [done|].
  destruct (c =? sep)%N eqn:Hc.
  - apply N.eqb_eq in Hc as ->. rewrite join_cons_cons. cbn [app].
    by rewrite IH.
  - cbn [cons_head]. rewrite <- IH.
    destruct parts; [done|]. by rewrite !join_cons_cons.
Qed.

Lemma joined_len_filter parts :
  joined_len sep (filter (λ p, p ≠ []) parts) ≤ joined_len sep parts.
Proof.
  induction parts as [|p parts IH]; [done|].
  rewrite joined_len_cons.
  pose proof (sep_if_nonneg (0 <? length parts)%nat).
  destruct (decide (p ≠ [])) as [Hp|Hp].
  - rewrite filter_cons_True by done. rewrite joined_len_cons.
    pose proof (length_filter (λ p, p ≠ []) parts) as Hlen.
    assert (sep_if sep (0 <? length (filter (λ p, p ≠ []) parts))%nat
            ≤ sep_if sep (0 <? length parts)%nat).
    { destruct (filter (λ p, p ≠ []) parts); [done|].
      destruct parts; [cbn in Hlen; lia | done]. }
    lia.
  - rewrite filter_cons_False by done.
    pose proof (py_len_nonneg p). lia.
Qed.

Lemma split_text_with_regex_nonempty text :
  Forall (λ p, p ≠ []) (split_text_with_regex sep text).
Proof.
  unfold split_text_with_regex. apply Forall_forall.
  intros p Hp. by apply list_elem_of_filter in Hp as [? _].
Qed.

Lemma split_text_with_regex_len text :
  joined_len sep (split_text_with_regex sep text) ≤ py_len text.
Proof.
  unfold split_text_with_regex. etrans; [apply joined_len_filter|].
  unfold joined_len. by rewrite join_re_split.
Qed.

End Joining.

Section Merging.

Variable sep : N.
Variables chunk_size chunk_overlap : Z.
Hypothesis overlap_nonneg : 0 ≤ chunk_overlap.

Implicit Types (d p : pystr) (cur splits : list pystr) (st : merge_state).

Lemma ltb_snoc cur d :
  (1 <? length (cur ++ [d]))%nat = (0 <? length cur)%nat.
Proof. rewrite length_app. cbn [length]. by rewrite Nat.add_1_r. Qed.

Lemma joined_len_push cur d :
  joined_len sep cur + (py_len d + sep_if sep (1 <? length (cur ++ [d]))%nat)
  = joined_len sep (cur ++ [d]).
Proof. rewrite ltb_snoc, joined_len_snoc. lia. Qed.

Lemma join_docs_len cur t :
  join_docs sep cur = Some t → py_len t ≤ joined_len sep cur ∧ t ≠ [].
Proof.
  unfold join_docs. destruct (decide (strip (join [sep] cur) = [])); [done|].
  intros [= <-]. split; [apply strip_length | done].
Qed.

(** The [while] loop ends without an [IndexError]: it leaves a suffix of
    the pending pieces, with [total] still their joined length, on which
    its condition is false. *)
Lemma pop_loop_tracks cur _len :
  Forall (λ p, p ≠ []) cur →
  ∃ cur',
    pop_loop sep chunk_size chunk_overlap cur (joined_len sep cur) _len
      = Some (cur', joined_len sep cur')
    ∧ Forall (λ p, p ≠ []) cur'
    ∧ keep_popping sep chunk_size chunk_overlap cur' (joined_len sep cur') _len
      = false.
Proof.
  induction 1 as [|c rest Hc Hrest IH].
  - exists []. cbn [pop_loop].
    assert (keep_popping sep chunk_size chunk_overlap []
              (joined_len sep []) _len = false) as Hk.
    { unfold keep_popping. rewrite joined_len_nil.
      rewrite (proj2 (Z.ltb_ge _ _) overlap_nonneg).
      by rewrite andb_false_r. }
    by rewrite Hk.
  - cbn [pop_loop].
    destruct (keep_popping sep chunk_size chunk_overlap (c :: rest)
                (joined_len sep (c :: rest)) _len) eqn:Hk.
    + destruct IH as (cur' & Hpop & Hne & Hexit).
      exists cur'. split_and!; [|done..].
      rewrite <- Hpop. f_equal. rewrite joined_len_cons.
      change (1 <? length (c :: rest))%nat with (0 <? length rest)%nat. lia.
    + exists (c :: rest). split_and!; [done| by constructor | done].
Qed.

(** One round of the loop, case by case. *)
Lemma merge_step_cases st d :
  tracks sep st →
  ∃ docs' cur',
    merge_step sep chunk_size chunk_overlap st d
      = Some (mkMerge docs' (cur' ++ [d]) (joined_len sep (cur' ++ [d])))
    ∧ Forall (λ p, p ≠ []) cur'
    ∧ ((docs' = docs st ∧ cur' = current_doc st
        ∧ joined_len sep (cur' ++ [d]) ≤ chunk_size)
       ∨ (docs' = docs st ∧ cur' = [] ∧ current_doc st = [])
       ∨ (docs' = append_doc (docs st) (join_docs sep (current_doc st))
          ∧ keep_popping sep chunk_size chunk_overlap cur'
              (joined_len sep cur') (py_len d) = false)).
Proof.
  destruct st as [ds cur tot]. intros [Htot Hne]. cbn in Htot, Hne. subst tot.
  unfold merge_step. cbn [docs current_doc total].
  destruct (chunk_size <? joined_len sep cur + py_len d
                          + sep_if sep (0 <? length cur)%nat) eqn:Hover.
  - destruct cur as [|c cur].
    + exists ds, [].
      cbn [length Nat.ltb Nat.leb mbind option_bind docs current_doc total].
      rewrite joined_len_push. split_and!; [done | done | auto].
    + cbn [length Nat.ltb Nat.leb].
      destruct (pop_loop_tracks (c :: cur) (py_len d) Hne)
        as (cur' & Hpop & Hne' & Hexit).
      rewrite Hpop.
      cbn [mbind option_bind docs current_doc total fst snd].
      exists (append_doc ds (join_docs sep (c :: cur))), cur'.
      rewrite joined_len_push. split_and!; [done | done | auto].
  - exists ds, cur.
    cbn [mbind option_bind docs current_doc total].
    rewrite joined_len_push.
    split_and!; [done | done |]. left. split_and!; [done..|].
    apply Z.ltb_ge in Hover. rewrite joined_len_snoc. lia.
Qed.

Lemma merge_step_tracks st d :
  tracks sep st → d ≠ [] →
  ∃ st', merge_step sep chunk_size chunk_overlap st d = Some st'
         ∧ tracks sep st'.
Proof.
  intros Hst Hd.
  destruct (merge_step_cases st d Hst) as (docs' & cur' & -> & Hne & _).
  eexists. split; [done|]. split; [done|].
  cbn. apply Forall_app. split; [done|]. by constructor.
Qed.

(** The loop of [_merge_splits] never raises on non-empty pieces. *)
Lemma merge_loop_tracks splits st :
  Forall (λ p, p ≠ []) splits → tracks sep st →
  ∃ st', merge_loop sep chunk_size chunk_overlap splits st = Some st'
         ∧ tracks sep st'.
Proof.
  intros Hall. revert st.
  induction Hall as [|d splits Hd Hall IH]; intros st Hst.
  - by exists st.
  - destruct (merge_step_tracks st d Hst Hd) as (st' & Hstep & Hst').
    cbn [merge_loop]. rewrite Hstep. cbn. by apply IH.
Qed.

(** [split_text] returns for every text. *)
Lemma split_text_total text :
  is_Some (split_text sep chunk_size chunk_overlap text).
Proof.
  unfold split_text, merge_splits.
  destruct (merge_loop_tracks (split_text_with_regex sep text)
              (mkMerge [] [] 0)) as (st' & -> & _).
  - apply split_text_with_regex_nonempty.
  - by split.
  - by eexists.
Qed.

End Merging.

Section Bounds.

Variable sep : N.
Variables chunk_size chunk_overlap : Z.
Hypothesis overlap_nonneg : 0 ≤ chunk_overlap.

Implicit Types (d p : pystr) (cur splits : list pystr) (st : merge_state).

Lemma append_doc_bounded ds cur :
  Forall (λ doc, py_len doc ≤ chunk_size) ds →
  joined_len sep cur ≤ chunk_size →
  Forall (λ doc, py_len doc ≤ chunk_size) (append_doc ds (join_docs sep cur)).
Proof.
  intros Hds Hcur. destruct (join_docs sep cur) as [t|] eqn:Ht; [|done].
  apply join_docs_len in Ht as [Ht _]. cbn [append_doc].
  apply Forall_app. split; [done|]. constructor; [lia | constructor].
Qed.

(** While no piece is longer than [chunk_size], neither the pending text
    nor an emitted chunk is. *)
Lemma merge_step_bounded st d :
  tracks sep st → d ≠ [] → py_len d ≤ chunk_size →
  total st ≤ chunk_size →
  Forall (λ doc, py_len doc ≤ chunk_size) (docs st) →
  ∃ st', merge_step sep chunk_size chunk_overlap st d = Some st'
         ∧ tracks sep st'
         ∧ total st' ≤ chunk_size
         ∧ Forall (λ doc, py_len doc ≤ chunk_size) (docs st').
Proof.
  intros Hst Hd Hlen Htot Hdocs.
  destruct (merge_step_cases sep chunk_size chunk_overlap overlap_nonneg
              st d Hst) as (docs' & cur' & Hstep & Hne & Hcases).
  eexists. split; [exact Hstep|]. cbn [docs current_doc total].
  split_and!.
  - split; [done|]. cbn. apply Forall_app. split; [done|]. by constructor.
  - destruct Hcases as [(_ & _ & Hfit)|[(_ & -> & _)|(_ & Hexit)]].
    + done.
    + cbn [app]. rewrite joined_len_cons, joined_len_nil. cbn. lia.
    + rewrite joined_len_snoc. destruct cur' as [|c cur'].
      * rewrite joined_len_nil. cbn. lia.
      * unfold keep_popping in Hexit.
        apply orb_false_elim in Hexit as [_ Hexit].
        apply andb_false_elim in Hexit as [Hfit|Hzero].
        -- apply Z.ltb_ge in Hfit. lia.
        -- apply Z.ltb_ge in Hzero.
           pose proof (joined_len_positive sep (c :: cur')) as Hpos.
           specialize (Hpos ltac:(done) Hne). lia.
  - destruct Hst as [Heq _].
    destruct Hcases as [(-> & _)|[(-> & _)|(-> & _)]]; [done..|].
    apply append_doc_bounded; [done|]. by rewrite <- Heq.
Qed.

Lemma merge_loop_bounded splits st :
  Forall (λ d, d ≠ [] ∧ py_len d ≤ chunk_size) splits →
  tracks sep st → total st ≤ chunk_size →
  Forall (λ doc, py_len doc ≤ chunk_size) (docs st) →
  ∃ st', merge_loop sep chunk_size chunk_overlap splits st = Some st'
         ∧ tracks sep st'
         ∧ total st' ≤ chunk_size
         ∧ Forall (λ doc, py_len doc ≤ chunk_size) (docs st').
Proof.
  intros Hall. revert st.
  induction Hall as [|d splits [Hd Hlen] Hall IH]; intros st Hst Htot Hdocs.
  - by exists st.
  - destruct (merge_step_bounded st d Hst Hd Hlen Htot Hdocs)
      as (st' & Hstep & Hst' & Htot' & Hdocs').
    cbn [merge_loop]. rewrite Hstep. cbn [mbind option_bind]. by apply IH.
Qed.

(** When no line is longer than [chunk_size], no chunk is. *)
Lemma split_text_bounded text :
  0 ≤ chunk_size →
  Forall (λ line, py_len line ≤ chunk_size) (re_split sep text) →
  ∃ chunks, split_text sep chunk_size chunk_overlap text = Some chunks
            ∧ Forall (λ chunk, py_len chunk ≤ chunk_size) chunks.
Proof.
  intros Hsize Hlines. unfold split_text, merge_splits.
  destruct (merge_loop_bounded (split_text_with_regex sep text)
              (mkMerge [] [] 0)) as (st' & -> & [Heq _] & Htot & Hdocs).
  - unfold split_text_with_regex. apply Forall_forall. intros p Hp.
    apply list_elem_of_filter in Hp as [Hne Hp]. split; [done|].
    by eapply Forall_forall in Hlines.
  - by split.
  - done.
  - done.
  - eexists. split; [done|]. apply append_doc_bounded; [done|].
    by rewrite <- Heq.
Qed.

(** Pieces that fit together into one chunk are all kept pending: the
    loop emits nothing. *)
Lemma merge_loop_fits splits st :
  total st = joined_len sep (current_doc st) →
  joined_len sep (current_doc st ++ splits) ≤ chunk_size →
  merge_loop sep chunk_size chunk_overlap splits st =
    Some (mkMerge (docs st) (current_doc st ++ splits)
            (joined_len sep (current_doc st ++ splits))).
Proof.
  revert st. induction splits as [|d splits IH]; intros [ds cur tot].
  - cbn. intros -> _. by rewrite app_nil_r.
  - cbn [docs current_doc total]. intros -> Hfit.
    rewrite (cons_middle d cur splits), app_assoc in Hfit |- *.
    pose proof (joined_len_app_le sep (cur ++ [d]) splits) as Hle.
    cbn [merge_loop]. unfold merge_step. cbn [docs current_doc total].
    assert ((chunk_size <? joined_len sep cur + py_len d
                           + sep_if sep (0 <? length cur)%nat) = false) as ->.
    { apply Z.ltb_ge. rewrite joined_len_snoc in Hle. lia. }
    cbn [mbind option_bind docs current_doc total].
    rewrite joined_len_push. by rewrite IH.
Qed.

(** A text no longer than [chunk_size] gives at most one chunk: its
    non-empty lines joined again, stripped. *)
Lemma split_text_fits text :
  py_len text ≤ chunk_size →
  split_text sep chunk_size chunk_overlap text =
    Some (append_doc [] (join_docs sep (split_text_with_regex sep text))).
Proof.
  intros Hlen. unfold split_text, merge_splits.
  rewrite merge_loop_fits; [done | done |].
  cbn [current_doc app].
  pose proof (split_text_with_regex_len sep text). lia.
Qed.

(** A single piece is never cut, whatever its length. *)
Lemma merge_splits_single d :
  merge_splits sep chunk_size chunk_overlap [d] =
    Some (append_doc [] (join_docs sep [d])).
Proof.
  unfold merge_splits. cbn [merge_loop]. unfold merge_step.
  cbn [docs current_doc total length Nat.ltb Nat.leb].
  by destruct (chunk_size <? 0 + py_len d + sep_if sep false).
Qed.

Lemma join_docs_single d :
  d ≠ [] → strip d = d → join_docs sep [d] = Some d.
Proof.
  intros Hd Hstrip. unfold join_docs. cbn [join]. rewrite Hstrip.
  by rewrite decide_False.
Qed.

End Bounds.

(** ** Splitting documents *)

Section SplitDocuments.

Variable sep : N.
Variables chunk_size chunk_overlap : Z.
Hypothesis overlap_nonneg : 0 ≤ chunk_overlap.

Implicit Types (doc : Document) (documents : list Document).

Lemma create_documents_from_chunks (done_docs documents : list Document)
    (chunkss : list (list pystr)) :
  Forall2 (λ doc chunks,
             split_text sep chunk_size chunk_overlap (page_content doc)
               = Some chunks) documents chunkss →
  create_documents_from sep chunk_size chunk_overlap (length done_docs)
      (page_content <$> documents) (metadata <$> (done_docs ++ documents))
    = Some (concat (zip_with segments_of documents chunkss)).
Proof.
  intros Hall. revert done_docs.
  induction Hall as [|doc chunks documents chunkss Hdoc Hall IH];
    intros done_docs; [done|].
  rewrite fmap_cons. cbn [create_documents_from]. rewrite Hdoc.
  cbn [mbind option_bind].
  assert ((metadata <$> done_docs ++ doc :: documents) !! length done_docs
          = Some (metadata doc)) as Hmd.
  { rewrite list_lookup_fmap, list_lookup_middle; done. }
  specialize (IH (done_docs ++ [doc])).
  rewrite length_app, Nat.add_1_r, <- app_assoc in IH. cbn [app] in IH.
  rewrite Hmd, IH. cbn [mbind option_bind zip_with concat].
  by destruct chunks.
Qed.

(** [split_documents] gives, document after document, the chunks of the
    page content, each with the metadata of its document. *)
Lemma split_documents_chunks documents (chunkss : list (list pystr)) :
  Forall2 (λ doc chunks,
             split_text sep chunk_size chunk_overlap (page_content doc)
               = Some chunks) documents chunkss →
  split_documents sep chunk_size chunk_overlap documents
    = Some (concat (zip_with segments_of documents chunkss)).
Proof.
  intros Hall. unfold split_documents, create_documents.
  destruct Hall as [|doc chunks documents chunkss Hdoc Hall]; [done|].
  rewrite (fmap_cons metadata).
  by apply (create_documents_from_chunks [] (doc :: documents)
              (chunks :: chunkss)); constructor.
Qed.

Lemma split_text_all documents :
  ∃ chunkss : list (list pystr),
    Forall2 (λ doc chunks,
               split_text sep chunk_size chunk_overlap (page_content doc)
                 = Some chunks) documents chunkss.
Proof.
  induction documents as [|doc documents [chunkss IH]].
  - by exists [].
  - destruct (split_text_total sep chunk_size chunk_overlap overlap_nonneg
                (page_content doc)) as [chunks Hdoc].
    exists (chunks :: chunkss). by constructor.
Qed.

Lemma split_documents_single doc (chunks : list pystr) :
  split_text sep chunk_size chunk_overlap (page_content doc) = Some chunks →
  split_documents sep chunk_size chunk_overlap [doc]
    = Some (segments_of doc chunks).
Proof.
  intros Hdoc. rewrite (split_documents_chunks [doc] [chunks]).
  - cbn [zip_with concat]. by rewrite app_nil_r.
  - by repeat constructor.
Qed.

(** Every segment carries the metadata of the document it was cut from. *)
Lemma split_documents_metadata documents :
  ∃ segments,
    split_documents sep chunk_size chunk_overlap documents = Some segments
    ∧ Forall (λ seg, ∃ doc chunks,
                doc ∈ documents
                ∧ split_text sep chunk_size chunk_overlap (page_content doc)
                  = Some chunks
                ∧ page_content seg ∈ chunks
                ∧ metadata seg = metadata doc) segments.
Proof.
  destruct (split_text_all documents) as [chunkss Hall].
  eexists. split; [by apply split_documents_chunks|].
  induction Hall as [|doc chunks documents chunkss Hdoc Hall IH]; [done|].
  cbn [zip_with concat]. apply Forall_app. split.
  - apply Forall_forall. intros seg Hseg.
    apply list_elem_of_fmap in Hseg as (chunk & -> & Hchunk).
    exists doc, chunks. split_and!; [by left | done..].
  - eapply Forall_impl; [exact IH|].
    intros seg (doc' & chunks' & Hin & ?). exists doc', chunks'.
    split; [by right | done].
Qed.

End SplitDocuments.

(** ** The chunker of [create_vector_store] *)

Lemma CHUNK_OVERLAP_nonneg : 0 ≤ CHUNK_OVERLAP.
Proof. done. Qed.

Lemma CHUNK_SIZE_nonneg : 0 ≤ CHUNK_SIZE.
Proof. done. Qed.

(** The chunker returns for every list of documents. *)
Lemma chunker_total (documents : list Document) :
  is_Some (split_documents NL CHUNK_SIZE CHUNK_OVERLAP documents).
Proof.
  destruct (split_documents_metadata NL CHUNK_SIZE CHUNK_OVERLAP
              CHUNK_OVERLAP_nonneg documents) as (segments & -> & _).
  by eexists.
Qed.

(** C4, as the code has it.  When no line of the page content is longer
    than [CHUNK_SIZE], the chunker returns and every segment is at most
    [CHUNK_SIZE] long.  The chunker cuts at newlines only: a page content
    that is one line (without surrounding whitespace) comes back as one
    segment equal to the document, whatever its length. *)
Theorem segments_bounded_when_lines_fit (doc : Document) :
  (Forall (λ line, py_len line ≤ CHUNK_SIZE) (re_split NL (page_content doc)) →
   ∃ segments,
     split_documents NL CHUNK_SIZE CHUNK_OVERLAP [doc] = Some segments
     ∧ Forall (λ seg, py_len (page_content seg) ≤ CHUNK_SIZE) segments)
  ∧ (NL ∉ page_content doc → page_content doc ≠ [] →
     strip (page_content doc) = page_content doc →
     split_documents NL CHUNK_SIZE CHUNK_OVERLAP [doc] = Some [doc]).
Proof.
  split.
  - intros Hlines.
    destruct (split_text_bounded NL CHUNK_SIZE CHUNK_OVERLAP
                CHUNK_OVERLAP_nonneg (page_content doc) CHUNK_SIZE_nonneg
                Hlines) as (chunks & Hsplit & Hbound).
    exists (segments_of doc chunks).
    split; [by apply split_documents_single|].
    unfold segments_of. by apply Forall_fmap.
  - intros Hnl Hne Hstrip.
    rewrite (split_documents_single _ _ _ doc [page_content doc]).
    + by destruct doc.
    + unfold split_text, split_text_with_regex.
      rewrite re_split_no_sep by done.
      rewrite filter_cons_True by done. rewrite filter_nil.
      rewrite merge_splits_single. by rewrite join_docs_single.
Qed.

Lemma segments_bounded_when_lines_fit_witness :
  (Forall (λ line, py_len line ≤ CHUNK_SIZE)
     (re_split NL (page_content doc_sample))
   ∧ ∃ segments,
       split_documents NL CHUNK_SIZE CHUNK_OVERLAP [doc_sample] = Some segments
       ∧ Forall (λ seg, py_len (page_content seg) ≤ CHUNK_SIZE) segments)
  ∧ ((NL ∉ page_content doc_long_line) ∧ page_content doc_long_line ≠ []
     ∧ strip (page_content doc_long_line) = page_content doc_long_line
     ∧ split_documents NL CHUNK_SIZE CHUNK_OVERLAP [doc_long_line]
       = Some [doc_long_line]).
Proof.
  assert (Forall (λ line, py_len line ≤ CHUNK_SIZE)
            (re_split NL (page_content doc_sample))) as Hlines
    by compute_done.
  assert (NL ∉ page_content doc_long_line) as Hnl by compute_done.
  assert (page_content doc_long_line ≠ []) as Hne by done.
  assert (strip (page_content doc_long_line) = page_content doc_long_line)
    as Hstrip by (by vm_compute).
  split.
  - split; [exact Hlines|].
    exact (proj1 (segments_bounded_when_lines_fit doc_sample) Hlines).
  - split_and!; [exact Hnl | exact Hne | exact Hstrip |].
    exact (proj2 (segments_bounded_when_lines_fit doc_long_line)
             Hnl Hne Hstrip).
Defined.

(** C4, as stated, fails: the record [row_long] gives a page content
    longer than [CHUNK_SIZE]; its record line, itself longer than
    [CHUNK_SIZE], comes out whole as the second segment. *)
Lemma long_line_not_hard_split :
  CHUNK_SIZE < py_len (page_content doc_long)
  ∧ fmap (M:=list) page_content
      <$> split_documents NL CHUNK_SIZE CHUNK_OVERLAP [doc_long]
    = Some [header_line (PyStr (py "人事部")); emp_info row_long]
  ∧ CHUNK_SIZE < py_len (emp_info row_long).
Proof. split_and!; by vm_compute. Qed.

(** C5, as the code has it.  A document whose page content is at most
    [CHUNK_SIZE] long yields at most one segment: the page content with
    its empty lines dropped and the whitespace at both ends stripped, or
    no segment when nothing is left.  The segment equals the document when
    the page content is not empty, has no empty line and neither starts
    nor ends with whitespace. *)
Theorem short_document_one_segment (doc : Document) :
  py_len (page_content doc) ≤ CHUNK_SIZE →
  let kept := filter (λ line, line ≠ []) (re_split NL (page_content doc)) in
  let text := strip (join [NL] kept) in
  split_documents NL CHUNK_SIZE CHUNK_OVERLAP [doc] =
    Some (if decide (text = []) then []
          else [mkDocument text (metadata doc)])
  ∧ (page_content doc ≠ [] →
     Forall (λ line, line ≠ []) (re_split NL (page_content doc)) →
     strip (page_content doc) = page_content doc →
     split_documents NL CHUNK_SIZE CHUNK_OVERLAP [doc] = Some [doc]).
Proof.
  intros Hlen kept text.
  assert (split_documents NL CHUNK_SIZE CHUNK_OVERLAP [doc] =
            Some (if decide (text = []) then []
                  else [mkDocument text (metadata doc)])) as Hsplit.
  { rewrite (split_documents_single _ _ _ doc
               (append_doc [] (join_docs NL kept))).
    - unfold join_docs. fold text. by destruct (decide (text = [])).
    - by apply split_text_fits. }
  split; [exact Hsplit|].
  intros Hne Hlines Hstrip. rewrite Hsplit.
  assert (kept = re_split NL (page_content doc)) as Hkept.
  { unfold kept. clear -Hlines.
    induction Hlines as [|line lines Hline Hlines IH]; [done|].
    rewrite filter_cons_True by done. by rewrite IH. }
  assert (text = page_content doc) as ->.
  { unfold text. by rewrite Hkept, join_re_split. }
  rewrite decide_False by done. by destruct doc.
Qed.

Lemma short_document_one_segment_witness :
  (py_len (page_content doc_sample) ≤ CHUNK_SIZE
   ∧ split_documents NL CHUNK_SIZE CHUNK_OVERLAP [doc_sample] =
       Some [mkDocument
               (strip (join [NL]
                         (filter (λ line, line ≠ [])
                            (re_split NL (page_content doc_sample)))))
               (metadata doc_sample)])
  ∧ (py_len (page_content doc_two_lines) ≤ CHUNK_SIZE
     ∧ page_content doc_two_lines ≠ []
     ∧ Forall (λ line, line ≠ []) (re_split NL (page_content doc_two_lines))
     ∧ strip (page_content doc_two_lines) = page_content doc_two_lines
     ∧ split_documents NL CHUNK_SIZE CHUNK_OVERLAP [doc_two_lines]
       = Some [doc_two_lines]).
Proof.
  assert (py_len (page_content doc_sample) ≤ CHUNK_SIZE) as Hlen
    by (by vm_compute).
  assert (py_len (page_content doc_two_lines) ≤ CHUNK_SIZE) as Hlen2
    by (by vm_compute).
  assert (page_content doc_two_lines ≠ []) as Hne by done.
  assert (Forall (λ line, line ≠ [])
            (re_split NL (page_content doc_two_lines))) as Hlines
    by compute_done.
  assert (strip (page_content doc_two_lines) = page_content doc_two_lines)
    as Hstrip by (by vm_compute).
  split.
  - split; [exact Hlen|].
    destruct (short_document_one_segment doc_sample Hlen) as [Hsplit _].
    rewrite Hsplit. rewrite decide_False; [done|]. by vm_compute.
  - split_and!; [exact Hlen2 | exact Hne | exact Hlines | exact Hstrip |].
    destruct (short_document_one_segment doc_two_lines Hlen2) as [_ Hsame].
    exact (Hsame Hne Hlines Hstrip).
Defined.

(** C5, as stated, fails on the loader's own documents: the page content
    of [doc_sample] is shorter than [CHUNK_SIZE], and its one segment is
    the page content without the empty line after the header, which is not
    the page content. *)
Lemma sample_segment_differs :
  py_len (page_content doc_sample) ≤ CHUNK_SIZE
  ∧ fmap (M:=list) page_content
      <$> split_documents NL CHUNK_SIZE CHUNK_OVERLAP [doc_sample]
    = Some [header_line (PyStr (py "人事部")) ++ [NL] ++ emp_info row_sample]
  ∧ fmap (M:=list) page_content
      <$> split_documents NL CHUNK_SIZE CHUNK_OVERLAP [doc_sample]
    ≠ Some [page_content doc_sample].
Proof. split_and!; by vm_compute. Qed.

(** C6. The chunker returns for every list of documents, and every
    segment it produces was cut from one of them and has that document's
    metadata, unchanged; in particular the source path and the group key
    stored under "source" and "department" are those of the document. *)
Theorem segments_inherit_metadata (documents : list Document) :
  ∃ segments,
    split_documents NL CHUNK_SIZE CHUNK_OVERLAP documents = Some segments
    ∧ Forall (λ seg, ∃ doc chunks,
                doc ∈ documents
                ∧ split_text NL CHUNK_SIZE CHUNK_OVERLAP (page_content doc)
                  = Some chunks
                ∧ page_content seg ∈ chunks
                ∧ metadata seg = metadata doc
                ∧ metadata seg !! py "source" = metadata doc !! py "source"
                ∧ metadata seg !! py "department"
                  = metadata doc !! py "department") segments.
Proof.
  destruct (split_documents_metadata NL CHUNK_SIZE CHUNK_OVERLAP
              CHUNK_OVERLAP_nonneg documents) as (segments & Hsplit & Hall).
  exists segments. split; [done|].
  eapply Forall_impl; [exact Hall|].
  intros seg (doc & chunks & Hin & Hdoc & Hchunk & Hmd).
  exists doc, chunks. rewrite Hmd. by split_and!.
Qed.

(** The segments of the documents of one load name the source file and a
    group key of that load. *)
Lemma loader_segments_metadata (rows : list row) :
  ∃ segments,
    split_documents NL CHUNK_SIZE CHUNK_OVERLAP (build_docs (group_rows rows))
      = Some segments
    ∧ Forall (λ seg, metadata seg !! py "source" = Some (PyStr csv_path)
                ∧ ∃ dept, dept ∈ (group_rows rows).*1
                   ∧ metadata seg !! py "department" = Some dept) segments.
Proof.
  destruct (split_documents_metadata NL CHUNK_SIZE CHUNK_OVERLAP
              CHUNK_OVERLAP_nonneg (build_docs (group_rows rows)))
    as (segments & Hsplit & Hall).
  exists segments. split; [done|].
  eapply Forall_impl; [exact Hall|].
  intros seg (doc & chunks & Hin & _ & _ & ->).
  apply list_elem_of_fmap in Hin as (entry & -> & Hentry).
  split; [apply make_doc_source|].
  exists entry.1. split; [by apply list_elem_of_fmap_2 | ].
  apply make_doc_department.
Qed.

(** ** Completed runs *)

Section CompletedRuns.

Variable retriever_invoke : list Document → Z → pystr → list Document.

Lemma bind_some {A B} (m : io A) (k : A → io B) (t : list event) (a : A) :
  m = (t, Some a) → m ≫= k = (t ++ (k a).1, (k a).2).
Proof. intros ->. cbn. by destruct (k a). Qed.

Lemma service_calls_app (t1 t2 : list event) :
  service_calls (t1 ++ t2) = service_calls t1 ++ service_calls t2.
Proof. apply filter_app. Qed.

Lemma service_calls_prints (msgs : list message) :
  service_calls (EvPrint <$> msgs) = [].
Proof. induction msgs as [|m msgs IH]; [done|]. exact IH. Qed.

Lemma for_each_print_lists {A} (f : A → list message) (body : A → io unit)
    (xs : list A) :
  (∀ x, body x = (EvPrint <$> f x, Some tt)) →
  for_each body xs = (EvPrint <$> concat (f <$> xs), Some tt).
Proof.
  intros Hbody. induction xs as [|x xs IH]; [done|].
  cbn [for_each]. rewrite (bind_some _ _ _ _ (Hbody x)), IH.
  rewrite fmap_cons. cbn [concat fst snd]. by rewrite fmap_app.
Qed.

(** What the loader prints and returns for a table. *)
Lemma load_employee_csv_table (rows : list row) :
  load_employee_csv (Table rows) =
    (EvPrint <$> load_messages rows, Some (build_docs (group_rows rows))).
Proof.
  unfold load_employee_csv, load_messages. rewrite for_each_prints.
  destruct (group_rows rows) as [|entry g]; [done|].
  unfold build_docs. rewrite fmap_cons.
  rewrite make_doc_department.
  cbn [mbind io_bind mret io_ret print emit lift fst snd].
  f_equal. rewrite !fmap_app. cbn [fmap list_fmap app].
  by rewrite <- list_fmap_compose.
Qed.

Lemma test_search_run (vectorstore : list Document) (query : pystr) :
  test_search retriever_invoke vectorstore query =
    let results := retriever_invoke vectorstore RETRIEVER_SEARCH_K query in
    ([EvPrint (MsgQuery query); EvRetrieverInvoke query RETRIEVER_SEARCH_K;
      EvPrint (MsgResultCount (length results))]
       ++ (EvPrint <$> result_messages results),
     Some results).
Proof.
  unfold test_search, result_messages.
  rewrite (for_each_print_lists
             (λ p, [ MsgResultTitle (S p.1);
                     MsgResultDept
                       (dict_get (metadata p.2) (py "department")
                          (PyStr (py "N/A")));
                     MsgResultContent (take 300 (page_content p.2)) ]))
    by done.
  cbn [mbind io_bind mret io_ret print emit fst snd app].
  by rewrite app_nil_r, fmap_imap.
Qed.


Lemma group_rows_nonempty (rows : list row) :
  rows ≠ [] → group_rows rows ≠ [].
Proof.
  intros Hne Hg. pose proof (fold_group_step_records rows []) as Hperm.
  fold (group_rows rows) in Hperm. rewrite Hg in Hperm.
  apply Permutation_nil_l in Hperm. by rewrite app_nil_l in Hperm.
Qed.



End CompletedRuns.

(** * Further properties of the loader, the searches and the run *)

(** ** Buckets and documents *)

Section Buckets.

Implicit Types (g : groups) (rows more : list row) (r : row) (dept : pyval).

Lemma first_occurrences_length (ks : list pyval) :
  (length (first_occurrences ks) ≤ length ks)%nat.
Proof.
  induction ks as [|k ks IH]; [done|]. cbn [first_occurrences length].
  pose proof (length_filter (λ k', k' ≠ k) (first_occurrences ks)). lia.
Qed.

Lemma rows_of_nonempty dept rows :
  dept ∈ dept_of <$> rows → rows_of dept rows ≠ [].
Proof.
  intros (r & -> & Hr)%list_elem_of_fmap Hnil.
  assert (r ∈ rows_of (dept_of r) rows) as Hin.
  { unfold rows_of. by apply list_elem_of_filter. }
  rewrite Hnil in Hin. by apply elem_of_nil in Hin.
Qed.

Lemma group_rows_buckets_nonempty rows :
  Forall (λ entry, entry.2 ≠ []) (group_rows rows).
Proof.
  rewrite group_rows_grouped. unfold grouped. apply Forall_fmap.
  apply Forall_forall. intros dept Hdept. cbn.
  apply rows_of_nonempty. by apply first_occurrences_elem.
Qed.

Lemma build_docs_departments g :
  (λ doc, metadata doc !! py "department") <$> build_docs g = Some <$> g.*1.
Proof.
  unfold build_docs. rewrite <- !list_fmap_compose.
  apply list_fmap_ext. intros i entry _. apply make_doc_department.
Qed.

Lemma first_occurrences_prefix (ks more : list pyval) :
  first_occurrences ks `prefix_of` first_occurrences (ks ++ more).
Proof.
  induction more as [|k more IH] using rev_ind.
  - by rewrite app_nil_r.
  - rewrite app_assoc, first_occurrences_snoc.
    destruct (decide (k ∈ ks ++ more)); [done|]. by apply prefix_app_r.
Qed.

End Buckets.

(** X1. Every bucket of [dept_groups] holds at least one record, and the
    loader hands back no document exactly when the table has no row. *)
Theorem buckets_never_empty (rows : list row) :
  Forall (λ entry, entry.2 ≠ []) (group_rows rows)
  ∧ ((load_employee_csv (Table rows)).2 = Some [] ↔ rows = []).
Proof.
  split; [apply group_rows_buckets_nonempty|].
  rewrite load_employee_csv_result. split.
  - intros [= Hdocs]. apply fmap_nil_inv in Hdocs.
    destruct rows as [|r rows]; [done|].
    by apply group_rows_nonempty in Hdocs.
  - by intros ->.
Qed.

Lemma buckets_never_empty_witness :
  rows_scenario ≠ []
  ∧ (load_employee_csv (Table rows_scenario)).2 ≠ Some [].
Proof.
  assert (rows_scenario ≠ []) as Hrows by done.
  split; [exact Hrows|].
  intros Hnone.
  exact (Hrows (proj1 (proj2 (buckets_never_empty rows_scenario)) Hnone)).
Defined.

(** X2. One load builds one document per distinct group key: the
    "department" entries of the documents are pairwise distinct, every
    row's group key is the "department" of some document, and there are
    at most as many documents as rows. *)
Theorem one_document_per_key (rows : list row) :
  let docs := build_docs (group_rows rows) in
  NoDup ((λ doc, metadata doc !! py "department") <$> docs)
  ∧ Forall (λ r, ∃ doc, doc ∈ docs
                ∧ metadata doc !! py "department" = Some (dept_of r)) rows
  ∧ (length docs ≤ length rows)%nat.
Proof.
  intros docs. unfold docs. split_and!.
  - rewrite build_docs_departments, group_rows_grouped, grouped_keys.
    apply (NoDup_fmap_2 Some), first_occurrences_NoDup.
  - apply Forall_forall. intros r Hr.
    destruct (bucket_of_row rows r Hr) as [Hin _].
    exists (make_doc (dept_of r, rows_of (dept_of r) rows)).
    split; [by apply list_elem_of_fmap_2 | apply make_doc_department].
  - unfold build_docs.
    rewrite length_fmap, group_rows_grouped. unfold grouped.
    rewrite length_fmap.
    etrans; [apply first_occurrences_length|]. by rewrite length_fmap.
Qed.

(** X3. Rows added at the end of the table never reorder what was grouped
    before: the keys of the shorter table are a prefix of the keys of the
    longer one, and every bucket of the shorter table is a prefix of the
    bucket of the same key in the longer one. *)
Theorem grouping_extends (rows more : list row) :
  (group_rows rows).*1 `prefix_of` (group_rows (rows ++ more)).*1
  ∧ Forall (λ entry, ∃ bucket,
              (entry.1, bucket) ∈ group_rows (rows ++ more)
              ∧ entry.2 `prefix_of` bucket) (group_rows rows).
Proof.
  rewrite !group_rows_grouped. split.
  - rewrite !grouped_keys, fmap_app. apply first_occurrences_prefix.
  - unfold grouped at 2. apply Forall_fmap, Forall_forall.
    intros dept Hdept. cbn.
    exists (rows_of dept (rows ++ more)). split.
    + unfold grouped. apply list_elem_of_fmap. exists dept.
      split; [done|]. apply first_occurrences_elem.
      rewrite first_occurrences_elem in Hdept.
      rewrite fmap_app, elem_of_app. by left.
    + unfold rows_of. rewrite filter_app. by apply prefix_app_r.
Qed.

(** ** Record lines *)

Section RecordLines.

Implicit Types (r emp : row) (key : pystr).

Lemma field_pair_ext (r1 r2 : row) (field : pystr * pystr * pystr) :
  dict_get r1 field.1.2 (PyStr []) = dict_get r2 field.1.2 (PyStr []) →
  field_pair r1 field = field_pair r2 field.
Proof. destruct field as [[label key] suffix]. cbn. by intros ->. Qed.

Lemma emp_info_ext (r1 r2 : row) :
  Forall (λ field, dict_get r1 field.1.2 (PyStr [])
                   = dict_get r2 field.1.2 (PyStr [])) FIELDS →
  emp_info r1 = emp_info r2.
Proof.
  intros Hall. rewrite !emp_info_pairs. f_equal.
  apply Forall_fmap_ext_1. eapply Forall_impl; [exact Hall|].
  intros field. apply field_pair_ext.
Qed.

(** Storing the empty string under a key the row lacks changes no
    [get(key, '')]. *)
Lemma dict_get_insert_empty r key key' :
  r !! key = None →
  dict_get (<[key := PyStr []]> r) key' (PyStr []) = dict_get r key' (PyStr []).
Proof.
  intros Hnone. unfold dict_get. destruct (decide (key = key')) as [<-|Hne].
  - by rewrite lookup_insert_eq, Hnone.
  - by rewrite lookup_insert_ne.
Qed.

End RecordLines.

(** X4. The record line is determined by the values of the nine fields it
    shows, an absent field counting as an empty one: two rows that agree
    on them, whatever their other columns, give the same line. *)
Theorem record_line_reads_nine_fields (r1 r2 : row) :
  Forall (λ field, dict_get r1 field.1.2 (PyStr [])
                   = dict_get r2 field.1.2 (PyStr [])) FIELDS →
  emp_info r1 = emp_info r2.
Proof. apply emp_info_ext. Qed.

Lemma record_line_reads_nine_fields_witness :
  Forall (λ field, dict_get row_no_dept field.1.2 (PyStr [])
                   = dict_get row_extra_column field.1.2 (PyStr [])) FIELDS
  ∧ emp_info row_no_dept = emp_info row_extra_column.
Proof.
  assert (Forall (λ field, dict_get row_no_dept field.1.2 (PyStr [])
                   = dict_get row_extra_column field.1.2 (PyStr [])) FIELDS)
    as Hall by (repeat constructor).
  split; [exact Hall|].
  exact (record_line_reads_nine_fields row_no_dept row_extra_column Hall).
Defined.

(** X5. Grouping tells a row without the grouping field from the same
    row with an empty one (the keys are "不明" and the empty string), but
    their record lines are the same: inside the "不明" document the
    department of such a record is printed as empty. *)
Theorem absent_dept_prints_empty (r : row) :
  r !! py "部署" = None →
  dept_of r = PyStr (py "不明")
  ∧ dept_of (<[py "部署" := PyStr []]> r) = PyStr []
  ∧ emp_info (<[py "部署" := PyStr []]> r) = emp_info r.
Proof.
  intros Hnone. split_and!.
  - by apply dept_of_absent.
  - apply dept_of_present, lookup_insert_eq.
  - apply emp_info_ext, Forall_forall. intros field _.
    by apply dict_get_insert_empty.
Qed.

Lemma absent_dept_prints_empty_witness :
  row_no_dept !! py "部署" = None
  ∧ dept_of row_no_dept = PyStr (py "不明")
  ∧ dept_of (<[py "部署" := PyStr []]> row_no_dept) = PyStr []
  ∧ emp_info (<[py "部署" := PyStr []]> row_no_dept) = emp_info row_no_dept.
Proof.
  assert (row_no_dept !! py "部署" = None) as Hnone by (by vm_compute).
  split; [exact Hnone|].
  exact (absent_dept_prints_empty row_no_dept Hnone).
Defined.

(** ** The loader's report *)

Section Report.

Implicit Types (rows : list row) (msgs : list message).

Lemma bucket_total_rows rows : bucket_total (group_rows rows) = length rows.
Proof.
  rewrite bucket_total_concat. unfold group_rows.
  by rewrite fold_group_step_records.
Qed.

Lemma dept_counts_prints msgs :
  dept_counts (EvPrint <$> msgs) =
    omap (λ m, match m with MsgDept _ n => Some n | _ => None end) msgs.
Proof.
  unfold dept_counts. induction msgs as [|m msgs IH]; [done|].
  rewrite fmap_cons. cbn [omap list_omap]. rewrite IH. by destruct m.
Qed.

Lemma dept_counts_load rows :
  dept_counts (load_employee_csv (Table rows)).1 =
    (λ entry, length entry.2) <$> group_rows rows.
Proof.
  rewrite load_employee_csv_table. cbn [fst].
  rewrite dept_counts_prints. unfold load_messages.
  rewrite !omap_app. cbn [omap list_omap app].
  assert (∀ g : groups,
    omap (λ m, match m with MsgDept _ n => Some n | _ => None end)
      ((λ entry, MsgDept entry.1 (length entry.2)) <$> g)
    = (λ entry, length entry.2) <$> g) as ->.
  { induction g as [|entry g IH]; [done|].
    rewrite !fmap_cons. cbn [omap list_omap]. by rewrite IH. }
  destruct (group_rows rows); cbn [omap list_omap]; by rewrite app_nil_r.
Qed.

Lemma load_messages_printed rows (m : message) :
  m ∈ load_messages rows → EvPrint m ∈ (load_employee_csv (Table rows)).1.
Proof.
  intros Hm. rewrite load_employee_csv_table. by apply list_elem_of_fmap_2.
Qed.

End Report.

(** X6. The loader's report is consistent: the per-department counts it
    prints add up to the number of rows it reports, and the number of
    departments and of documents it reports is the number of
    per-department lines. *)
Theorem report_counts_add_up (rows : list row) :
  let t := (load_employee_csv (Table rows)).1 in
  sum_list (dept_counts t) = length rows
  ∧ EvPrint (MsgRowsRead (length rows)) ∈ t
  ∧ EvPrint (MsgDeptCount (length (dept_counts t))) ∈ t
  ∧ EvPrint (MsgDocsCreated (length (dept_counts t))) ∈ t.
Proof.
  intros t. unfold t. rewrite dept_counts_load, length_fmap.
  split_and!.
  - apply bucket_total_rows.
  - apply load_messages_printed. unfold load_messages.
    cbn [app]. right. by left.
  - apply load_messages_printed. unfold load_messages.
    cbn [app]. right. right. by left.
  - apply load_messages_printed. unfold load_messages, build_docs.
    rewrite length_fmap, !elem_of_app. right. right. left. by left.
Qed.

(** X7. For a table with at least one row, the sample the loader prints
    is taken from the first document it returns, which is the document of
    the first row's group key; the sample content is the first 500
    characters of that document at most. *)
Theorem sample_shows_first_department (r : row) (rows : list row) :
  ∃ doc docs,
    (load_employee_csv (Table (r :: rows))).2 = Some (doc :: docs)
    ∧ metadata doc !! py "department" = Some (dept_of r)
    ∧ EvPrint (MsgSampleDept (dept_of r))
      ∈ (load_employee_csv (Table (r :: rows))).1
    ∧ EvPrint (MsgSampleContent (take 500 (page_content doc)))
      ∈ (load_employee_csv (Table (r :: rows))).1
    ∧ take 500 (page_content doc) `prefix_of` page_content doc
    ∧ (length (take 500 (page_content doc)) ≤ 500)%nat.
Proof.
  assert (∃ g, group_rows (r :: rows)
               = (dept_of r, rows_of (dept_of r) (r :: rows)) :: g)
    as [g Hg].
  { rewrite group_rows_grouped. unfold grouped. rewrite fmap_cons.
    cbn [first_occurrences]. rewrite fmap_cons. by eexists. }
  exists (make_doc (dept_of r, rows_of (dept_of r) (r :: rows))),
         (build_docs g).
  split_and!.
  - rewrite load_employee_csv_result, Hg. done.
  - apply make_doc_department.
  - apply load_messages_printed. unfold load_messages. rewrite Hg.
    rewrite !elem_of_app. do 3 right. right. by left.
  - apply load_messages_printed. unfold load_messages. rewrite Hg.
    rewrite !elem_of_app. do 3 right. right. right. by left.
  - apply prefix_take.
  - rewrite length_take. lia.
Qed.

(** ** Searches *)

Section Searches.

Variable retriever_invoke : list Document → Z → pystr → list Document.

Implicit Types (results vectorstore : list Document) (query : pystr).

(** The lines printed for the results, whatever the numbering. *)
Lemma previews_results (number : nat → nat) results :
  previews
    (EvPrint <$> concat
       (imap (λ i doc,
                [ MsgResultTitle (number i);
                  MsgResultDept
                    (dict_get (metadata doc) (py "department")
                       (PyStr (py "N/A")));
                  MsgResultContent (take 300 (page_content doc)) ])
          results))
  = (λ doc, take 300 (page_content doc)) <$> results.
Proof.
  revert number. induction results as [|doc results IH]; intros number; [done|].
  rewrite imap_cons. cbn [concat]. rewrite fmap_app, fmap_cons.
  unfold previews in *. rewrite omap_app. cbn [fmap list_fmap omap list_omap app].
  f_equal. apply (IH (number ∘ S)).
Qed.

Lemma reported_depts_results (number : nat → nat) results :
  reported_depts
    (EvPrint <$> concat
       (imap (λ i doc,
                [ MsgResultTitle (number i);
                  MsgResultDept
                    (dict_get (metadata doc) (py "department")
                       (PyStr (py "N/A")));
                  MsgResultContent (take 300 (page_content doc)) ])
          results))
  = (λ doc, dict_get (metadata doc) (py "department") (PyStr (py "N/A")))
      <$> results.
Proof.
  revert number. induction results as [|doc results IH]; intros number; [done|].
  rewrite imap_cons. cbn [concat]. rewrite fmap_app, fmap_cons.
  unfold reported_depts in *. rewrite omap_app.
  cbn [fmap list_fmap omap list_omap app].
  f_equal. apply (IH (number ∘ S)).
Qed.

Lemma result_lines_length (number : nat → nat) results :
  length
    (concat
       (imap (λ i doc,
                [ MsgResultTitle (number i);
                  MsgResultDept
                    (dict_get (metadata doc) (py "department")
                       (PyStr (py "N/A")));
                  MsgResultContent (take 300 (page_content doc)) ])
          results))
  = (3 * length results)%nat.
Proof.
  revert number. induction results as [|doc results IH]; intros number; [done|].
  rewrite imap_cons. cbn [concat length app].
  transitivity (3 + 3 * length results)%nat; [|lia].
  cbn [Nat.add]. do 3 f_equal. apply (IH (number ∘ S)).
Qed.

Lemma result_messages_length results :
  length (result_messages results) = (3 * length results)%nat.
Proof. apply (result_lines_length S). Qed.

End Searches.

(** X8. [test_search] asks the retriever once, for [RETRIEVER_SEARCH_K]
    results, and returns what the retriever returned, unchanged.  It
    prints one preview per result, in the retriever's order, each the
    first 300 characters of the result at most; in all it prints three
    lines per result after the query and the result count. *)
Theorem test_search_reports
    (retriever_invoke : list Document → Z → pystr → list Document)
    (vectorstore : list Document) (query : pystr) :
  let results := retriever_invoke vectorstore RETRIEVER_SEARCH_K query in
  let run := test_search retriever_invoke vectorstore query in
  run.2 = Some results
  ∧ service_calls run.1 = [EvRetrieverInvoke query RETRIEVER_SEARCH_K]
  ∧ previews run.1 = (λ doc, take 300 (page_content doc)) <$> results
  ∧ Forall (λ preview, (length preview ≤ 300)%nat) (previews run.1)
  ∧ length run.1 = (3 + 3 * length results)%nat.
Proof.
  intros results run.
  assert (run =
            ([EvPrint (MsgQuery query);
              EvRetrieverInvoke query RETRIEVER_SEARCH_K;
              EvPrint (MsgResultCount (length results))]
               ++ (EvPrint <$> result_messages results), Some results))
    as Hrun by apply test_search_run.
  assert (previews run.1 = (λ doc, take 300 (page_content doc)) <$> results)
    as Hprev.
  { rewrite Hrun. cbn [fst]. unfold previews. rewrite omap_app.
    cbn [omap list_omap app]. apply (previews_results S). }
  split_and!.
  - by rewrite Hrun.
  - rewrite Hrun. cbn [fst].
    rewrite service_calls_app, service_calls_prints. done.
  - exact Hprev.
  - rewrite Hprev. apply Forall_fmap, Forall_forall. intros doc _. cbn.
    rewrite length_take. lia.
  - rewrite Hrun. cbn [fst].
    rewrite length_app, length_fmap, result_messages_length. done.
Qed.

(** X9. When the retriever answers with texts of the store, and the store
    holds the segments of the documents of one load, every department
    [test_search] reports is a group key of that load (the "N/A" fallback
    is not used). *)
Theorem reported_departments_are_group_keys
    (retriever_invoke : list Document → Z → pystr → list Document)
    (rows : list row) (texts : list Document) (query : pystr) :
  split_documents NL CHUNK_SIZE CHUNK_OVERLAP (build_docs (group_rows rows))
    = Some texts →
  retriever_invoke texts RETRIEVER_SEARCH_K query ⊆ texts →
  Forall (λ dept, dept ∈ (group_rows rows).*1)
    (reported_depts (test_search retriever_invoke texts query).1).
Proof.
  intros Htexts Hsub.
  destruct (loader_segments_metadata rows) as (segments & Hsplit & Hall).
  rewrite Htexts in Hsplit. injection Hsplit as <-.
  rewrite test_search_run. cbv zeta. cbn [fst].
  unfold reported_depts. rewrite omap_app. cbn [omap list_omap app].
  fold (reported_depts (EvPrint <$> result_messages
         (retriever_invoke texts RETRIEVER_SEARCH_K query))).
  unfold result_messages. rewrite (reported_depts_results S).
  apply Forall_fmap, Forall_forall. intros doc Hdoc.
  apply Hsub in Hdoc.
  apply (proj1 (Forall_forall _ _) Hall) in Hdoc as (_ & dept & Hdept & Hmd).
  unfold compose, dict_get. by rewrite Hmd.
Qed.

Lemma reported_departments_are_group_keys_witness :
  ∃ texts,
    split_documents NL CHUNK_SIZE CHUNK_OVERLAP
      (build_docs (group_rows rows_scenario)) = Some texts
    ∧ retriever_first texts RETRIEVER_SEARCH_K (py "人事部") ⊆ texts
    ∧ Forall (λ dept, dept ∈ (group_rows rows_scenario).*1)
        (reported_depts (test_search retriever_first texts (py "人事部")).1).
Proof.
  destruct (chunker_total (build_docs (group_rows rows_scenario)))
    as [texts Htexts].
  assert (retriever_first texts RETRIEVER_SEARCH_K (py "人事部") ⊆ texts)
    as Hsub by apply subseteq_take.
  exists texts. split_and!; [exact Htexts | exact Hsub |].
  exact (reported_departments_are_group_keys retriever_first rows_scenario
           texts (py "人事部") Htexts Hsub).
Defined.

(** ** What the chunker keeps of a text *)

Section Whitespace.

Implicit Types (s : pystr) (parts : list pystr).

Lemma rev_reverse s : rev s = reverse s.
Proof. unfold reverse. apply rev_alt. Qed.

Lemma lstrip_head s : from_option is_space false (head (lstrip s)) = false.
Proof.
  induction s as [|c s IH]; [done|]. cbn [lstrip].
  by destruct (is_space c) eqn:Hc.
Qed.

Lemma lstrip_suffix s : lstrip s `suffix_of` s.
Proof.
  induction s as [|c s IH]; [done|]. cbn [lstrip].
  destruct (is_space c); [by apply suffix_cons_r | done].
Qed.

Lemma suffix_last (l1 l2 : pystr) :
  l1 `suffix_of` l2 → l1 ≠ [] → last l1 = last l2.
Proof.
  intros [k ->] Hne. destruct l1 as [|c l1]; [done|].
  by rewrite last_app_cons.
Qed.

(** A stripped text neither starts nor ends with whitespace. *)
Lemma strip_ends s :
  from_option is_space false (head (strip s)) = false
  ∧ from_option is_space false (last (strip s)) = false.
Proof.
  unfold strip, rstrip. rewrite !rev_reverse.
  rewrite head_reverse, last_reverse. split; [|apply lstrip_head].
  destruct (lstrip (reverse (lstrip s))) as [|c u] eqn:Hu; [done|].
  rewrite <- Hu, (suffix_last _ _ (lstrip_suffix _)) by (by rewrite Hu).
  rewrite last_reverse. apply lstrip_head.
Qed.

Lemma lstrip_nil s : lstrip s = [] ↔ all_space s.
Proof.
  unfold all_space. induction s as [|c s IH]; [done|]. cbn [lstrip].
  rewrite Forall_cons. destruct (is_space c) eqn:Hc.
  - rewrite IH. tauto.
  - split; [done|]. intros [? _]. congruence.
Qed.

Lemma strip_nil s : strip s = [] ↔ all_space s.
Proof.
  unfold strip, rstrip. rewrite !rev_reverse.
  split.
  - intros Hnil. apply (f_equal reverse) in Hnil.
    rewrite reverse_involutive in Hnil. cbn in Hnil.
    apply lstrip_nil in Hnil. unfold all_space in Hnil.
    rewrite Forall_reverse in Hnil. apply lstrip_nil.
    pose proof (lstrip_head s) as Hhead.
    destruct (lstrip s) as [|c u]; [done|].
    apply Forall_cons in Hnil as [Hc _]. cbn in Hhead. congruence.
  - intros Hall. apply lstrip_nil in Hall. rewrite Hall. done.
Qed.

Lemma all_space_join sep parts :
  is_space sep = true →
  all_space (join [sep] parts) ↔ Forall all_space parts.
Proof.
  intros Hsep. unfold all_space.
  induction parts as [|p parts IH]; [by split; constructor|].
  destruct parts as [|q parts].
  - cbn [join]. rewrite Forall_singleton. done.
  - rewrite join_cons_cons, !Forall_app, IH, (Forall_cons _ p).
    rewrite Forall_singleton. tauto.
Qed.

Lemma join_docs_None sep parts :
  is_space sep = true →
  join_docs sep parts = None ↔ Forall all_space parts.
Proof.
  intros Hsep. rewrite <- (all_space_join sep parts Hsep), <- strip_nil.
  unfold join_docs.
  destruct (decide (strip (join [sep] parts) = [])); split; done.
Qed.

Lemma join_docs_Some sep parts chunk :
  join_docs sep parts = Some chunk ↔
  chunk = strip (join [sep] parts) ∧ chunk ≠ [].
Proof.
  unfold join_docs. destruct (decide (strip (join [sep] parts) = [])) as [He|Hne].
  - split; [done|]. intros [-> Hne]. done.
  - split; [by intros [= <-]|]. by intros [-> _].
Qed.

End Whitespace.

Section Chunks.

Variable sep : N.
Variables chunk_size chunk_overlap : Z.

Implicit Types (d p chunk : pystr) (cur splits seen all : list pystr).
Implicit Types (st : merge_state).

Lemma pop_loop_suffix cur tot _len cur' tot' :
  pop_loop sep chunk_size chunk_overlap cur tot _len = Some (cur', tot') →
  cur' `suffix_of` cur.
Proof.
  revert tot. induction cur as [|c cur IH]; intros tot; cbn [pop_loop].
  - destruct (keep_popping _ _ _ _ _ _); [done|]. by intros [= <- _].
  - destruct (keep_popping _ _ _ _ _ _).
    + intros Hpop. apply suffix_cons_r. by eapply IH.
    + by intros [= <- _].
Qed.

(** One round of the loop keeps a suffix of the pending pieces, adds the
    new piece, and emits at most the pending pieces it had. *)
Lemma merge_step_shape st d st' :
  merge_step sep chunk_size chunk_overlap st d = Some st' →
  ∃ cur',
    current_doc st' = cur' ++ [d]
    ∧ ((cur' = current_doc st ∧ docs st' = docs st)
       ∨ (cur' `suffix_of` current_doc st
          ∧ docs st' = append_doc (docs st) (join_docs sep (current_doc st)))).
Proof.
  unfold merge_step.
  destruct (chunk_size <? _); [destruct (0 <? _)%nat|].
  - destruct (pop_loop _ _ _ _ _ _) as [[cur' tot']|] eqn:Hpop; [|done].
    cbn [mbind option_bind docs current_doc total fst snd].
    intros [= <-]. cbn [docs current_doc]. exists cur'.
    split; [done|]. right. split; [|done]. by eapply pop_loop_suffix.
  - cbn [mbind option_bind]. intros [= <-]. cbn [docs current_doc].
    exists (current_doc st). auto.
  - cbn [mbind option_bind]. intros [= <-]. cbn [docs current_doc].
    exists (current_doc st). auto.
Qed.

Lemma cut_from_snoc all d chunk :
  cut_from sep all chunk → cut_from sep (all ++ [d]) chunk.
Proof.
  intros (before & pieces & after & -> & Hchunk).
  exists before, pieces, (after ++ [d]). by rewrite <- !app_assoc.
Qed.

Lemma cut_from_suffix all cur chunk :
  cur `suffix_of` all → join_docs sep cur = Some chunk →
  cut_from sep all chunk.
Proof.
  intros [k ->] Hjoin%join_docs_Some.
  exists k, cur, []. by rewrite app_nil_r.
Qed.

Lemma append_doc_cut_from all cur ds :
  cur `suffix_of` all →
  Forall (cut_from sep all) ds →
  Forall (cut_from sep all) (append_doc ds (join_docs sep cur)).
Proof.
  intros Hsuf Hds. destruct (join_docs sep cur) as [chunk|] eqn:Hjoin; [|done].
  cbn [append_doc]. apply Forall_app. split; [done|].
  constructor; [|done]. by eapply cut_from_suffix.
Qed.

(** Through the loop, the pending pieces are the last pieces read, and
    every chunk emitted was cut from the pieces read. *)
Lemma merge_loop_cut_from splits seen st st' :
  merge_loop sep chunk_size chunk_overlap splits st = Some st' →
  current_doc st `suffix_of` seen →
  Forall (cut_from sep seen) (docs st) →
  current_doc st' `suffix_of` seen ++ splits
  ∧ Forall (cut_from sep (seen ++ splits)) (docs st').
Proof.
  revert seen st. induction splits as [|d splits IH]; intros seen st.
  - cbn. intros [= <-]. by rewrite app_nil_r.
  - cbn [merge_loop].
    destruct (merge_step sep chunk_size chunk_overlap st d) as [st1|] eqn:Hstep;
      [|done].
    cbn [mbind option_bind]. intros Hloop Hsuf Hdocs.
    rewrite (cons_middle d seen splits), app_assoc.
    apply (IH (seen ++ [d]) st1 Hloop).
    + destruct (merge_step_shape st d st1 Hstep) as (cur' & -> & Hcase).
      apply suffix_snoc.
      destruct Hcase as [[-> _]|[Hcur' _]]; [done|]. by etrans.
    + destruct (merge_step_shape st d st1 Hstep) as (cur' & _ & Hcase).
      eapply Forall_impl; [|intros chunk; apply cut_from_snoc].
      destruct Hcase as [[_ ->]|[_ ->]]; [done|].
      by apply append_doc_cut_from.
Qed.

End Chunks.

Section Coverage.

Variable sep : N.
Variables chunk_size chunk_overlap : Z.
Hypothesis overlap_nonneg : 0 ≤ chunk_overlap.
Hypothesis sep_space : is_space sep = true.

Implicit Types (d p chunk text : pystr) (cur splits seen : list pystr).
Implicit Types (st : merge_state).

Lemma append_doc_nil (ds : list pystr) (doc : option pystr) :
  append_doc ds doc = [] → ds = [] ∧ doc = None.
Proof.
  destruct doc as [chunk|]; cbn [append_doc]; [|done].
  intros Hnil. by apply app_nil in Hnil as [_ ?].
Qed.

(** As long as nothing was emitted, every piece read is still pending or
    is whitespace only. *)
Lemma merge_loop_covers splits seen st st' :
  merge_loop sep chunk_size chunk_overlap splits st = Some st' →
  (docs st = [] → Forall (λ d, d ∈ current_doc st ∨ all_space d) seen) →
  docs st' = [] →
  Forall (λ d, d ∈ current_doc st' ∨ all_space d) (seen ++ splits).
Proof.
  revert seen st. induction splits as [|d splits IH]; intros seen st.
  - cbn. intros [= <-] Hcov Hnil. rewrite app_nil_r. auto.
  - cbn [merge_loop].
    destruct (merge_step sep chunk_size chunk_overlap st d) as [st1|] eqn:Hstep;
      [|done].
    cbn [mbind option_bind]. intros Hloop Hcov Hnil.
    rewrite (cons_middle d seen splits), app_assoc.
    apply (IH (seen ++ [d]) st1 Hloop); [|done].
    intros Hnil1.
    destruct (merge_step_shape sep chunk_size chunk_overlap st d st1 Hstep)
      as (cur' & -> & Hcase).
    apply Forall_app. split.
    + destruct Hcase as [[-> Hdocs]|[Hsuf Hdocs]]; rewrite Hdocs in Hnil1.
      * eapply Forall_impl; [exact (Hcov Hnil1)|].
        intros p [Hp|Hp]; [left|by right].
        rewrite elem_of_app. by left.
      * apply append_doc_nil in Hnil1 as [Hds Hjoin].
        apply (join_docs_None sep _ sep_space) in Hjoin.
        eapply Forall_impl; [exact (Hcov Hds)|].
        intros p [Hp|Hp]; [|by right]. right.
        by eapply Forall_forall in Hjoin.
    + constructor; [|done]. left. rewrite elem_of_app. right. by left.
Qed.

Lemma split_text_cut_from text (chunks : list pystr) :
  split_text sep chunk_size chunk_overlap text = Some chunks →
  Forall (cut_from sep (split_text_with_regex sep text)) chunks.
Proof.
  unfold split_text, merge_splits.
  destruct (merge_loop _ _ _ _ _) as [st'|] eqn:Hloop; [|done].
  cbn [mbind option_bind]. intros [= <-].
  destruct (merge_loop_cut_from sep chunk_size chunk_overlap _ [] _ _ Hloop)
    as [Hsuf Hdocs]; [done|done|].
  by apply append_doc_cut_from.
Qed.

Lemma all_space_pieces text :
  all_space text ↔ Forall all_space (split_text_with_regex sep text).
Proof.
  rewrite <- (join_re_split sep text) at 1.
  rewrite (all_space_join sep _ sep_space).
  unfold split_text_with_regex. rewrite !Forall_forall. split.
  - intros Hall p Hp. apply list_elem_of_filter in Hp as [_ Hp]. auto.
  - intros Hall p Hp. destruct p as [|c p]; [by constructor|].
    apply Hall, list_elem_of_filter. done.
Qed.

(** A text gives no chunk exactly when it holds nothing but whitespace. *)
Lemma split_text_nil text :
  split_text sep chunk_size chunk_overlap text = Some [] ↔ all_space text.
Proof.
  split.
  - intros Hsplit. apply all_space_pieces.
    unfold split_text, merge_splits in Hsplit.
    destruct (merge_loop _ _ _ _ _) as [st'|] eqn:Hloop; [|done].
    cbn [mbind option_bind] in Hsplit. injection Hsplit as Hnil.
    apply append_doc_nil in Hnil as [Hds Hjoin].
    apply (join_docs_None sep _ sep_space) in Hjoin.
    pose proof (merge_loop_covers _ [] _ _ Hloop) as Hcov.
    cbn [app] in Hcov. specialize (Hcov ltac:(by constructor) Hds).
    eapply Forall_impl; [exact Hcov|].
    intros p [Hp|Hp]; [|done]. by eapply Forall_forall in Hjoin.
  - intros Hall. apply all_space_pieces in Hall.
    destruct (split_text_total sep chunk_size chunk_overlap overlap_nonneg text)
      as [chunks Hsplit].
    rewrite Hsplit. f_equal.
    destruct chunks as [|chunk chunks]; [done|]. exfalso.
    apply split_text_cut_from in Hsplit.
    apply Forall_cons in Hsplit as [(before & pieces & after & Heq & -> & Hne) _].
    apply Hne, strip_nil, (all_space_join sep _ sep_space).
    rewrite Heq, !Forall_app in Hall. tauto.
Qed.

End Coverage.

Lemma NL_is_space : is_space NL = true.
Proof. done. Qed.

(** Every chunk of a document has a segment carrying its metadata. *)
Lemma segments_cover_documents (documents : list Document)
    (chunkss : list (list pystr)) (doc : Document) :
  Forall2 (λ doc chunks,
             split_text NL CHUNK_SIZE CHUNK_OVERLAP (page_content doc)
               = Some chunks) documents chunkss →
  doc ∈ documents →
  ∃ chunks,
    split_text NL CHUNK_SIZE CHUNK_OVERLAP (page_content doc) = Some chunks
    ∧ Forall (λ chunk, mkDocument chunk (metadata doc)
                       ∈ concat (zip_with segments_of documents chunkss))
        chunks.
Proof.
  induction 1 as [|doc' chunks' documents chunkss Hdoc' Hall IH]; intros Hin.
  - by apply elem_of_nil in Hin.
  - cbn [zip_with concat]. apply elem_of_cons in Hin as [->|Hin].
    + exists chunks'. split; [done|]. apply Forall_forall. intros chunk Hc.
      rewrite elem_of_app. left. unfold segments_of.
      by apply (list_elem_of_fmap_2 (λ chunk, mkDocument chunk _)).
    + destruct (IH Hin) as (chunks & Hsplit & Hsegs).
      exists chunks. split; [done|].
      eapply Forall_impl; [exact Hsegs|]. intros chunk Hc.
      rewrite elem_of_app. by right.
Qed.

(** The page content of a document of the loader starts with "【". *)
Lemma make_doc_not_blank (entry : pyval * list row) :
  ¬ all_space (page_content (make_doc entry)).
Proof.
  destruct entry as [dept employees]. cbn [make_doc page_content].
  unfold content_lines, all_space.
  assert (∃ rest, join [NL] (header dept :: (emp_info <$> employees))
                  = 0x3010%N :: rest) as [rest ->].
  { destruct (emp_info <$> employees) as [|line lines].
    - cbn [join]. unfold header. by eexists.
    - rewrite join_cons_cons. unfold header. by eexists. }
  intros [Hc _]%Forall_cons. done.
Qed.




(** X12. The chunker cuts at newlines only: every segment of a document
    is a run of consecutive non-empty lines of its page content, joined by
    newlines and stripped; it is not empty and neither starts nor ends
    with whitespace. *)
Theorem segments_are_runs_of_lines (doc : Document) :
  ∃ segments,
    split_documents NL CHUNK_SIZE CHUNK_OVERLAP [doc] = Some segments
    ∧ Forall (λ seg,
                cut_from NL
                  (filter (λ line, line ≠ []) (re_split NL (page_content doc)))
                  (page_content seg)
                ∧ from_option is_space false (head (page_content seg)) = false
                ∧ from_option is_space false (last (page_content seg)) = false)
        segments.
Proof.
  destruct (split_text_total NL CHUNK_SIZE CHUNK_OVERLAP CHUNK_OVERLAP_nonneg
              (page_content doc)) as [chunks Hsplit].
  exists (segments_of doc chunks).
  split; [by apply split_documents_single|].
  apply split_text_cut_from in Hsplit. unfold segments_of.
  apply Forall_fmap. eapply Forall_impl; [exact Hsplit|].
  intros chunk Hcut. cbn [compose page_content]. split; [exact Hcut|].
  destruct Hcut as (_ & pieces & _ & _ & -> & _). apply strip_ends.
Qed.

(** X13. A document gives no segment exactly when its page content is
    empty or made of whitespace only. *)
Theorem blank_document_gives_no_segment (doc : Document) :
  split_documents NL CHUNK_SIZE CHUNK_OVERLAP [doc] = Some []
  ↔ all_space (page_content doc).
Proof.
  rewrite <- (split_text_nil NL CHUNK_SIZE CHUNK_OVERLAP CHUNK_OVERLAP_nonneg
                NL_is_space).
  destruct (split_text_total NL CHUNK_SIZE CHUNK_OVERLAP CHUNK_OVERLAP_nonneg
              (page_content doc)) as [chunks Hsplit].
  rewrite (split_documents_single _ _ _ doc chunks Hsplit), Hsplit.
  unfold segments_of. split.
  - intros [= Hnil]. by apply fmap_nil_inv in Hnil as ->.
  - by intros [= ->].
Qed.

Lemma blank_document_gives_no_segment_witness :
  all_space (page_content doc_blank)
  ∧ split_documents NL CHUNK_SIZE CHUNK_OVERLAP [doc_blank] = Some [].
Proof.
  assert (all_space (page_content doc_blank)) as Hblank
    by (repeat constructor).
  split; [exact Hblank|].
  exact (proj2 (blank_document_gives_no_segment doc_blank) Hblank).
Defined.

(** X14. Chunking loses no department: every group key of a load is the
    "department" of at least one segment of the documents of that load. *)
Theorem every_department_is_indexed (rows : list row) :
  ∃ segments,
    split_documents NL CHUNK_SIZE CHUNK_OVERLAP (build_docs (group_rows rows))
      = Some segments
    ∧ Forall (λ dept, ∃ seg, seg ∈ segments
                       ∧ metadata seg !! py "department" = Some dept)
        (group_rows rows).*1.
Proof.
  destruct (split_text_all NL CHUNK_SIZE CHUNK_OVERLAP CHUNK_OVERLAP_nonneg
              (build_docs (group_rows rows))) as [chunkss Hall].
  eexists. split; [by apply split_documents_chunks|].
  apply Forall_fmap, Forall_forall. intros entry Hentry. cbn [compose].
  destruct (segments_cover_documents _ _ (make_doc entry) Hall)
    as (chunks & Hsplit & Hsegs).
  { by apply list_elem_of_fmap_2. }
  destruct chunks as [|chunk chunks].
  - exfalso. apply (make_doc_not_blank entry).
    by apply (split_text_nil NL CHUNK_SIZE CHUNK_OVERLAP CHUNK_OVERLAP_nonneg
                NL_is_space).
  - apply Forall_cons in Hsegs as [Hseg _].
    exists (mkDocument chunk (metadata (make_doc entry))).
    split; [exact Hseg|]. apply make_doc_department.
Qed.

(** ** How a run ends *)

Section Endings.

Variable retriever_invoke : list Document → Z → pystr → list Document.


End Endings.

